(** * miniEVM: a shallow embedding of [src/evm.ts]

    The interpreter of [src/evm.ts] is a TypeScript class [EVM] holding the
    bytecode ([Uint8Array]), a program counter and a stack of JavaScript
    numbers ([number[]]).  JavaScript numbers are IEEE 754 binary64 values, so
    the stack is modelled over [spec_float] with precision 53 and maximal
    exponent 1024, the executable specification of binary64 shipped with the
    standard library.  Exceptions ([throw new Error (...)]) are modelled by an
    explicit completion type. *)

From Stdlib Require Import ZArith NArith Arith List Bool String Ascii Lia.
From Stdlib Require Import Strings.Byte.
From Stdlib Require Import Floats.SpecFloat.
Import ListNotations.

(** ** The fragment of JavaScript used by the interpreter *)

Module JS.

(** The Number type: binary64, a single NaN. *)
Definition number : Type := spec_float.

Definition prec : Z := 53.
Definition emax : Z := 1024.

Definition NaN : number := S754_nan.

(** The Number value of a mathematical integer (round to nearest, ties to
    even), as used for numeric literals and by [parseInt]. *)
Definition of_Z (z : Z) : number := binary_normalize prec emax z 0 false.

(** [x + y], [x - y], [x * y], [x / y] on Numbers. *)
Definition add (x y : number) : number := SFadd prec emax x y.
Definition sub (x y : number) : number := SFsub prec emax x y.
Definition mul (x y : number) : number := SFmul prec emax x y.
Definition div (x y : number) : number := SFdiv prec emax x y.

(** [n % d], Number::remainder: the result has the sign of the dividend and
    is [n - d * q] with [q] the quotient truncated towards zero; that value
    is always representable. *)
Definition rem (n d : number) : number :=
  match n, d with
  | S754_nan, _ | _, S754_nan => S754_nan
  | S754_infinity _, _ => S754_nan
  | _, S754_infinity _ => n
  | _, S754_zero _ => S754_nan
  | S754_zero _, _ => n
  | S754_finite sn mn en, S754_finite _ md ed =>
      let e := Z.min en ed in
      let r := Z.rem (Zpos mn * 2 ^ (en - e)) (Zpos md * 2 ^ (ed - e)) in
      if (r =? 0)%Z then S754_zero sn
      else binary_normalize prec emax (cond_Zopp sn r) e false
  end%Z.

(** [2 ** 256] *)
Definition pow_2_256 : number := of_Z (2 ^ 256).

(** [x < y], [x > y], [x === y] and [x !== y] on Numbers. *)
Definition lt (x y : number) : bool := SFltb x y.
Definition gt (x y : number) : bool := SFltb y x.
Definition strict_eq (x y : number) : bool := SFeqb x y.
Definition strict_neq (x y : number) : bool := negb (SFeqb x y).

(** *** Strings *)

Definition hex_digit (d : N) : ascii :=
  match d with
  | 0 => "0" | 1 => "1" | 2 => "2" | 3 => "3" | 4 => "4" | 5 => "5"
  | 6 => "6" | 7 => "7" | 8 => "8" | 9 => "9" | 10 => "a" | 11 => "b"
  | 12 => "c" | 13 => "d" | 14 => "e" | _ => "f"
  end%N%char.

(** [byte.toString(16)] for an element of a [Uint8Array]: no leading zero. *)
Definition toString16 (b : byte) : string :=
  let n := Byte.to_N b in
  if (n <? 16)%N then String (hex_digit n) EmptyString
  else String (hex_digit (n / 16)) (String (hex_digit (n mod 16)) EmptyString).

Fixpoint replicate (n : nat) (c : ascii) : string :=
  match n with
  | O => EmptyString
  | S n' => String c (replicate n' c)
  end.

(** [s.padStart(target, fill)] with a one-character filler. *)
Definition padStart (target : nat) (fill : ascii) (s : string) : string :=
  (replicate (target - String.length s) fill ++ s)%string.

(** [parts.join('')] *)
Definition join (parts : list string) : string :=
  String.concat EmptyString parts.

(** The value of a character as a digit of radix 16. *)
Definition digit16 (c : ascii) : option Z :=
  let n := Z.of_N (N_of_ascii c) in
  if ((48 <=? n) && (n <=? 57))%Z then Some (n - 48)%Z
  else if ((97 <=? n) && (n <=? 102))%Z then Some (n - 87)%Z
  else if ((65 <=? n) && (n <=? 70))%Z then Some (n - 55)%Z
  else None.

(** The longest prefix of radix-16 digits of [s]: how many digits were read
    and the mathematical integer they denote, starting from [acc]. *)
Fixpoint digits16 (s : string) (count : nat) (acc : Z) : nat * Z :=
  match s with
  | EmptyString => (count, acc)
  | String c s' =>
      match digit16 c with
      | Some d => digits16 s' (S count) (16 * acc + d)%Z
      | None => (count, acc)
      end
  end.

(** [parseInt(s, 16)] on a string without leading white space, sign or
    [0x] prefix (the strings built by [EVM.push] contain only the characters
    [0-9a-f]): the digits are read as a mathematical integer, which is then
    converted to a Number; with no digit at all the result is [NaN]. *)
Definition parseInt16 (s : string) : number :=
  match digits16 s 0 0 with
  | (O, _) => NaN
  | (_, mathInt) => of_Z mathInt
  end.

End JS.

(** ** The class [EVM] *)

Module EVM.

Import JS.

Definition PUSH0 : N := 0x5f.
Definition PUSH1 : N := 0x60.
Definition PUSH32 : N := 0x7f.
Definition POP : N := 0x50.
Definition ADD : N := 0x01.
Definition MUL : N := 0x02.
Definition SUB : N := 0x03.
Definition DIV : N := 0x04.
Definition MOD : N := 0x06.
Definition LT : N := 0x10.
Definition GT : N := 0x11.
Definition EQ : N := 0x14.

(** The fields of an instance.  [stack] is the JavaScript array in index
    order: the top of the stack is the last element. *)
Record t : Type := mk {
  code : list byte;
  pc : nat;
  stack : list number
}.

Definition with_pc (vm : t) (p : nat) : t := mk (code vm) p (stack vm).
Definition with_stack (vm : t) (s : list number) : t := mk (code vm) (pc vm) s.

(** [constructor(code)] *)
Definition new (c : list byte) : t := mk c 0 [].

(** [throw new Error(message)] *)
Inductive exn : Type := Error (message : string).

Definition StackUnderflow : exn := Error "Stack underflow".

(** How a method call completes: normally, with the updated instance, or
    abruptly, with the exception thrown. *)
Inductive completion : Type :=
| Normal (vm : t)
| Throw (e : exn).

(** [Array.prototype.push] and [Array.prototype.pop].  Popping the empty
    array gives [undefined], which every use below would convert to [NaN];
    the guards of the methods exclude that case. *)
Definition array_push (a : list number) (x : number) : list number := a ++ [x].

Definition array_pop (a : list number) : number * list number :=
  match rev a with
  | [] => (NaN, [])
  | x :: r => (x, rev r)
  end.

(** [nextInstruction()]: the byte at [pc] ([undefined], here [None], past
    the end of the code) and the instance with [pc] advanced by one. *)
Definition nextInstruction (vm : t) : option N * t :=
  let op := option_map Byte.to_N (nth_error (code vm) (pc vm)) in
  (op, with_pc vm (pc vm + 1)).

(** [code.slice(start, end)] *)
Definition slice (c : list byte) (start stop : nat) : list byte :=
  firstn (stop - start) (skipn start c).

(** [push(size)] *)
Definition push (size : nat) (vm : t) : completion :=
  let data := slice (code vm) (pc vm) (pc vm + size) in
  let value :=
    parseInt16 (join (map (fun b => padStart 2 "0" (toString16 b)) data)) in
  let vm := with_stack vm (array_push (stack vm) value) in
  Normal (with_pc vm (pc vm + size)).

(** [pop()] *)
Definition pop (vm : t) : completion :=
  if (List.length (stack vm) =? 0)%nat then Throw StackUnderflow
  else Normal (with_stack vm (snd (array_pop (stack vm)))).

(** The shape shared by the eight binary methods: the guard on the stack
    length, two pops, and the push of a result computed from the first- and
    second-popped items. *)
Definition binary (f : number -> number -> number) (vm : t) : completion :=
  if (List.length (stack vm) <? 2)%nat then Throw StackUnderflow
  else
    let '(item1, s1) := array_pop (stack vm) in
    let '(item2, s2) := array_pop s1 in
    Normal (with_stack vm (array_push s2 (f item1 item2))).

Definition addResult (item1 item2 : number) : number :=
  rem (JS.add item1 item2) pow_2_256.
Definition mulResult (item1 item2 : number) : number :=
  rem (JS.mul item1 item2) pow_2_256.
Definition subResult (item1 item2 : number) : number :=
  rem (JS.sub item1 item2) pow_2_256.
(** [div] pushes [0] and returns early when [item2 === 0]. *)
Definition divResult (item1 item2 : number) : number :=
  if strict_eq item2 (of_Z 0) then of_Z 0
  else rem (JS.div item1 item2) pow_2_256.
Definition modResult (item1 item2 : number) : number :=
  if strict_neq item2 (of_Z 0) then rem (rem item1 item2) pow_2_256
  else of_Z 0.
Definition ltResult (item1 item2 : number) : number :=
  if JS.lt item1 item2 then of_Z 1 else of_Z 0.
Definition gtResult (item1 item2 : number) : number :=
  if JS.gt item1 item2 then of_Z 1 else of_Z 0.
Definition eqResult (item1 item2 : number) : number :=
  if strict_eq item2 item1 then of_Z 1 else of_Z 0.

Definition add : t -> completion := binary addResult.
Definition mul : t -> completion := binary mulResult.
Definition sub : t -> completion := binary subResult.
Definition div : t -> completion := binary divResult.
Definition mod_ : t -> completion := binary modResult.
Definition lt : t -> completion := binary ltResult.
Definition gt : t -> completion := binary gtResult.
Definition eq : t -> completion := binary eqResult.

(** The chain of [if]/[else if] in the body of the loop of [run], for the
    opcode [op] just fetched.  A comparison with [undefined] is false, and
    there is no final [else]: a byte that matches no branch does nothing. *)
Definition dispatch (op : option N) (vm : t) : completion :=
  match op with
  | None => Normal vm
  | Some op =>
      if ((PUSH1 <=? op) && (op <=? PUSH32))%N then
        let size := N.to_nat (op - PUSH1 + 1) in
        push size vm
      else if (op =? PUSH0)%N then
        Normal (with_stack vm (array_push (stack vm) (of_Z 0)))
      else if (op =? POP)%N then pop vm
      else if (op =? ADD)%N then add vm
      else if (op =? MUL)%N then mul vm
      else if (op =? SUB)%N then sub vm
      else if (op =? DIV)%N then div vm
      else if (op =? MOD)%N then mod_ vm
      else if (op =? LT)%N then lt vm
      else if (op =? GT)%N then gt vm
      else if (op =? EQ)%N then eq vm
      else Normal vm
  end.

(** One iteration of the loop of [run]. *)
Definition step (vm : t) : completion :=
  let '(op, vm) := nextInstruction vm in
  dispatch op vm.

(** How a call of [run] ends.  [OutOfFuel] belongs to the model only: it
    says that the iteration bound given to [run_loop] was too small. *)
Inductive outcome : Type :=
| Returned (vm : t)
| Uncaught (e : exn)
| OutOfFuel.

(** [while (this.pc < this.code.length) { ... }] *)
Fixpoint run_loop (fuel : nat) (vm : t) : outcome :=
  if (pc vm <? List.length (code vm))%nat then
    match fuel with
    | O => OutOfFuel
    | S fuel' =>
        match step vm with
        | Normal vm' => run_loop fuel' vm'
        | Throw e => Uncaught e
        end
    end
  else Returned vm.

(** [run()]: every iteration advances [pc], so as many iterations as there
    are bytes left suffice (see [run_loop_enough] below).  The final
    [console.log(this.stack)] prints the stack of the returned instance. *)
Definition run (vm : t) : outcome :=
  run_loop (List.length (code vm) - pc vm) vm.

End EVM.

Import JS.

(** ** Basic facts on the stack methods *)

Section StackFacts.

Variables (c : list byte) (p : nat).

Lemma array_pop_push (s : list number) (x : number) :
  EVM.array_pop (EVM.array_push s x) = (x, s).
Proof.
  unfold EVM.array_pop, EVM.array_push.
  rewrite rev_app_distr; simpl. now rewrite rev_involutive.
Qed.

Lemma length_push (s : list number) (x : number) :
  List.length (EVM.array_push s x) = S (List.length s).
Proof. unfold EVM.array_push. rewrite length_app; simpl; lia. Qed.

(** A binary method on a stack whose two topmost elements are [item2]
    (below) and [item1] (top). *)
Lemma binary_top2 (f : number -> number -> number) (s : list number)
      (item1 item2 : number) :
  EVM.binary f (EVM.mk c p (s ++ [item2; item1]))
  = EVM.Normal (EVM.mk c p (s ++ [f item1 item2])).
Proof.
  unfold EVM.binary; simpl EVM.stack.
  replace (s ++ [item2; item1])
    with (EVM.array_push (EVM.array_push s item2) item1)
    by (unfold EVM.array_push; now rewrite <- app_assoc).
  rewrite !length_push. simpl Nat.ltb.
  now rewrite !array_pop_push.
Qed.

Lemma binary_underflow (f : number -> number -> number) (s : list number) :
  List.length s < 2 ->
  EVM.binary f (EVM.mk c p s) = EVM.Throw EVM.StackUnderflow.
Proof.
  intros H. unfold EVM.binary; simpl EVM.stack.
  apply Nat.ltb_lt in H. now rewrite H.
Qed.

End StackFacts.

(** Every stack of at least two elements has the shape used by
    [binary_top2]. *)
Lemma top2_shape (s : list number) :
  2 <= List.length s ->
  exists s' item2 item1, s = s' ++ [item2; item1].
Proof.
  intros H.
  destruct (rev s) as [|item1 [|item2 r]] eqn:E.
  - apply (f_equal (@List.length _)) in E. rewrite length_rev in E. simpl in E. lia.
  - apply (f_equal (@List.length _)) in E. rewrite length_rev in E. simpl in E. lia.
  - exists (rev r), item2, item1.
    rewrite <- (rev_involutive s), E. simpl. now rewrite <- app_assoc.
Qed.

Lemma binary_cases (f : number -> number -> number) (vm : EVM.t) :
  (List.length (EVM.stack vm) < 2 /\ EVM.binary f vm = EVM.Throw EVM.StackUnderflow)
  \/ (2 <= List.length (EVM.stack vm) /\ exists vm', EVM.binary f vm = EVM.Normal vm').
Proof.
  destruct vm as [c p s]; simpl.
  destruct (Nat.lt_ge_cases (List.length s) 2) as [H|H].
  - left; split; [exact H | now apply binary_underflow].
  - right; split; [exact H|].
    destruct (top2_shape s H) as (s' & i2 & i1 & ->).
    rewrite binary_top2. eauto.
Qed.

(** ** End-to-end scenarios *)

(** C1: running [60 01 60 01 01] (push 1, push 1, add) returns normally with
    the stack [[2]]; running [60 02 60 03 03] (push 2, push 3, sub) returns
    normally with the stack [[1]]; and [sub] subtracts the second-popped item
    from the first-popped (topmost) one. *)
Theorem C1_add_sub_scenarios :
  EVM.run (EVM.new [x60; x01; x60; x01; x01])
  = EVM.Returned (EVM.mk [x60; x01; x60; x01; x01] 5 [of_Z 2])
  /\ EVM.run (EVM.new [x60; x02; x60; x03; x03])
     = EVM.Returned (EVM.mk [x60; x02; x60; x03; x03] 5 [of_Z 1])
  /\ (forall c p s item1 item2,
        EVM.sub (EVM.mk c p (s ++ [item2; item1]))
        = EVM.Normal (EVM.mk c p (s ++ [rem (JS.sub item1 item2) pow_2_256])))
  /\ JS.sub (of_Z 3) (of_Z 2) = of_Z 1.
Proof.
  split; [vm_compute; reflexivity|].
  split; [vm_compute; reflexivity|].
  split; [|vm_compute; reflexivity].
  intros. unfold EVM.sub. now rewrite binary_top2.
Qed.

(** ** Fetching and dispatching *)

Lemma step_fetch (vm : EVM.t) (b : byte) :
  nth_error (EVM.code vm) (EVM.pc vm) = Some b ->
  EVM.step vm
  = EVM.dispatch (Some (Byte.to_N b)) (EVM.with_pc vm (EVM.pc vm + 1)).
Proof.
  intros H. unfold EVM.step, EVM.nextInstruction. now rewrite H.
Qed.

Lemma fetch_in_range (vm : EVM.t) (b : byte) :
  nth_error (EVM.code vm) (EVM.pc vm) = Some b ->
  EVM.pc vm < List.length (EVM.code vm).
Proof.
  intros H. apply nth_error_Some. congruence.
Qed.

(** An exception thrown by the instruction at [pc] leaves [run] uncaught. *)
Lemma run_throw (vm : EVM.t) (b : byte) (e : EVM.exn) :
  nth_error (EVM.code vm) (EVM.pc vm) = Some b ->
  EVM.step vm = EVM.Throw e ->
  EVM.run vm = EVM.Uncaught e.
Proof.
  intros Hb Hs. pose proof (fetch_in_range vm b Hb) as Hlt.
  unfold EVM.run.
  destruct (List.length (EVM.code vm) - EVM.pc vm) as [|fuel] eqn:E; [lia|].
  simpl. apply Nat.ltb_lt in Hlt. now rewrite Hlt, Hs.
Qed.

(** The opcodes of the eight binary methods. *)
Definition binary_opcodes : list N :=
  [EVM.ADD; EVM.MUL; EVM.SUB; EVM.DIV; EVM.MOD; EVM.LT; EVM.GT; EVM.EQ].

(** The five arithmetic methods. *)
Definition arithmetic_methods : list (EVM.t -> EVM.completion) :=
  [EVM.add; EVM.mul; EVM.sub; EVM.div; EVM.mod_].

Lemma dispatch_binary_underflow (op : N) (vm : EVM.t) :
  In op binary_opcodes ->
  List.length (EVM.stack vm) < 2 ->
  EVM.dispatch (Some op) vm = EVM.Throw EVM.StackUnderflow.
Proof.
  intros Hin Hlen. destruct vm as [c p s]; simpl in Hlen.
  unfold binary_opcodes in Hin; simpl in Hin.
  repeat (destruct Hin as [<- | Hin];
          [simpl; now apply binary_underflow|]).
  contradiction.
Qed.

(** ** Subtraction and division on concrete operands *)

(** C2: with the first-popped item 2 and the second-popped item 3 (bytecode
    [60 03 60 02 03]), [sub] pushes the negative number -1: the remainder
    operator keeps the sign of [2 - 3], so the result is not reduced into
    the range of 256-bit words. *)
Theorem C2_sub_below_zero :
  EVM.subResult (of_Z 2) (of_Z 3) = of_Z (-1)
  /\ JS.lt (EVM.subResult (of_Z 2) (of_Z 3)) (of_Z 0) = true
  /\ EVM.subResult (of_Z 2) (of_Z 3) <> of_Z ((2 - 3) mod 2 ^ 256)
  /\ EVM.run (EVM.new [x60; x03; x60; x02; x03])
     = EVM.Returned (EVM.mk [x60; x03; x60; x02; x03] 5 [of_Z (-1)]).
Proof.
  split; [vm_compute; reflexivity|].
  split; [vm_compute; reflexivity|].
  split; [vm_compute; discriminate|].
  vm_compute; reflexivity.
Qed.

(** C3: with the first-popped item 3 and the second-popped item 2 (bytecode
    [60 02 60 03 04]), [div] pushes the quotient of the floating-point
    division, a number strictly between 1 and 2, and not [floor (3 / 2)]. *)
Theorem C3_div_fractional :
  EVM.run (EVM.new [x60; x02; x60; x03; x04])
  = EVM.Returned (EVM.mk [x60; x02; x60; x03; x04] 5 [EVM.divResult (of_Z 3) (of_Z 2)])
  /\ JS.lt (of_Z 1) (EVM.divResult (of_Z 3) (of_Z 2)) = true
  /\ JS.lt (EVM.divResult (of_Z 3) (of_Z 2)) (of_Z 2) = true
  /\ JS.add (EVM.divResult (of_Z 3) (of_Z 2)) (EVM.divResult (of_Z 3) (of_Z 2)) = of_Z 3
  /\ EVM.divResult (of_Z 3) (of_Z 2) <> of_Z (3 / 2).
Proof.
  repeat split; try (vm_compute; reflexivity).
  vm_compute; discriminate.
Qed.

(** ** What the arithmetic methods can throw *)

(** Whatever a step throws is the stack underflow, thrown with fewer than two
    items on the stack. *)
Lemma dispatch_throw (op : option N) (vm : EVM.t) (e : EVM.exn) :
  EVM.dispatch op vm = EVM.Throw e ->
  e = EVM.StackUnderflow /\ List.length (EVM.stack vm) < 2.
Proof.
  destruct op as [op|]; simpl; [|discriminate].
  destruct ((EVM.PUSH1 <=? op) && (op <=? EVM.PUSH32))%N; [discriminate|].
  assert (Hb : forall f, EVM.binary f vm = EVM.Throw e ->
                 e = EVM.StackUnderflow /\ List.length (EVM.stack vm) < 2).
  { intros f H. destruct (binary_cases f vm) as [[Hlen Ht] | [_ [vm' Hn]]].
    - rewrite Ht in H. injection H as <-. now split.
    - rewrite Hn in H. discriminate. }
  repeat match goal with
         | |- (if ?c then _ else _) = _ -> _ => destruct c
         end;
    first [ apply Hb | discriminate | idtac ].
  unfold EVM.pop. destruct (List.length (EVM.stack vm)) eqn:E; simpl.
  - intros H. injection H as <-. split; [reflexivity | lia].
  - discriminate.
Qed.

Lemma step_throw (vm : EVM.t) (e : EVM.exn) :
  EVM.step vm = EVM.Throw e ->
  e = EVM.StackUnderflow /\ List.length (EVM.stack vm) < 2.
Proof.
  unfold EVM.step, EVM.nextInstruction. intros H.
  apply dispatch_throw in H. exact H.
Qed.

(** The opcodes of the five arithmetic methods. *)
Definition arithmetic_opcodes : list N :=
  [EVM.ADD; EVM.MUL; EVM.SUB; EVM.DIV; EVM.MOD].

(** Division and modulo by zero push [0], and an arithmetic method throws
    only the stack underflow, and only with fewer than two items. *)
Lemma arithmetic_errors (vm : EVM.t) (a : number) (s : list number) :
  EVM.div (EVM.mk (EVM.code vm) (EVM.pc vm) (s ++ [of_Z 0; a]))
  = EVM.Normal (EVM.mk (EVM.code vm) (EVM.pc vm) (s ++ [of_Z 0]))
  /\ EVM.mod_ (EVM.mk (EVM.code vm) (EVM.pc vm) (s ++ [of_Z 0; a]))
     = EVM.Normal (EVM.mk (EVM.code vm) (EVM.pc vm) (s ++ [of_Z 0]))
  /\ EVM.divResult a (of_Z 0) = of_Z 0
  /\ EVM.modResult a (of_Z 0) = of_Z 0
  /\ (forall m, In m arithmetic_methods ->
       (2 <= List.length (EVM.stack vm) -> exists vm', m vm = EVM.Normal vm')
       /\ (forall e, m vm = EVM.Throw e ->
             e = EVM.StackUnderflow /\ List.length (EVM.stack vm) < 2))
  /\ (forall b e, nth_error (EVM.code vm) (EVM.pc vm) = Some b ->
       In (Byte.to_N b) arithmetic_opcodes ->
       EVM.step vm = EVM.Throw e ->
       e = EVM.StackUnderflow /\ List.length (EVM.stack vm) < 2).
Proof.
  assert (Hd : EVM.divResult a (of_Z 0) = of_Z 0) by reflexivity.
  assert (Hm : EVM.modResult a (of_Z 0) = of_Z 0) by reflexivity.
  split; [unfold EVM.div; now rewrite binary_top2, Hd|].
  split; [unfold EVM.mod_; now rewrite binary_top2, Hm|].
  split; [exact Hd|]. split; [exact Hm|].
  split; [|intros b e _ _ H; exact (step_throw vm e H)].
  intros m Hin.
  assert (Hb : exists f, m = EVM.binary f).
  { unfold arithmetic_methods in Hin; simpl in Hin.
    repeat (destruct Hin as [<- | Hin]; [eexists; reflexivity|]).
    contradiction. }
  destruct Hb as [f ->].
  destruct (binary_cases f vm) as [[Hlen Ht] | [Hlen [vm' Hn]]].
  - split; [lia|]. intros e He. rewrite Ht in He. injection He as <-. now split.
  - split; [eauto|]. intros e He. rewrite Hn in He. discriminate.
Qed.

(** ** Stack underflow *)

(** C8: at an instruction [POP] with an empty stack, and at any binary
    instruction (ADD, MUL, SUB, DIV, MOD, LT, GT, EQ) with fewer than two
    items, the step throws the stack underflow and [run] ends with it
    uncaught; in particular the one-byte program [50] does. *)
Theorem C8_stack_underflow (vm : EVM.t) (b : byte) :
  nth_error (EVM.code vm) (EVM.pc vm) = Some b ->
  (Byte.to_N b = EVM.POP -> List.length (EVM.stack vm) = 0 ->
     EVM.pop vm = EVM.Throw EVM.StackUnderflow
     /\ EVM.step vm = EVM.Throw EVM.StackUnderflow
     /\ EVM.run vm = EVM.Uncaught EVM.StackUnderflow)
  /\ (In (Byte.to_N b) binary_opcodes -> List.length (EVM.stack vm) < 2 ->
        EVM.step vm = EVM.Throw EVM.StackUnderflow
        /\ EVM.run vm = EVM.Uncaught EVM.StackUnderflow)
  /\ EVM.run (EVM.new [x50]) = EVM.Uncaught EVM.StackUnderflow.
Proof.
  intros Hb. split; [|split; [|reflexivity]].
  - intros Hop Hlen.
    assert (Hp : EVM.pop vm = EVM.Throw EVM.StackUnderflow).
    { unfold EVM.pop. now rewrite Hlen. }
    assert (Hs : EVM.step vm = EVM.Throw EVM.StackUnderflow).
    { rewrite (step_fetch vm b Hb), Hop. simpl.
      unfold EVM.pop; simpl. now rewrite Hlen. }
    repeat split; auto. now apply (run_throw vm b).
  - intros Hin Hlen.
    assert (Hs : EVM.step vm = EVM.Throw EVM.StackUnderflow).
    { rewrite (step_fetch vm b Hb). now apply dispatch_binary_underflow. }
    split; auto. now apply (run_throw vm b).
Qed.

Lemma C8_stack_underflow_witness :
  EVM.run (EVM.mk [x60; x01; x03] 2 [of_Z 1]) = EVM.Uncaught EVM.StackUnderflow
  /\ EVM.pop (EVM.new [x50]) = EVM.Throw EVM.StackUnderflow.
Proof.
  split.
  - apply (proj1 (proj2 (C8_stack_underflow (EVM.mk [x60; x01; x03] 2 [of_Z 1]) x03 eq_refl))).
    + right; right; left; reflexivity.
    + simpl; lia.
  - apply (proj1 (C8_stack_underflow (EVM.new [x50]) x50 eq_refl)); reflexivity.
Defined.

(** ** Bytes that match no branch of the dispatch *)

(** The bytes tested by the branches of the loop of [run]. *)
Definition recognized (op : N) : bool :=
  ((EVM.PUSH1 <=? op) && (op <=? EVM.PUSH32)
   || (op =? EVM.PUSH0) || (op =? EVM.POP) || (op =? EVM.ADD)
   || (op =? EVM.MUL) || (op =? EVM.SUB) || (op =? EVM.DIV)
   || (op =? EVM.MOD) || (op =? EVM.LT) || (op =? EVM.GT)
   || (op =? EVM.EQ))%N.

(** C6, as stated, fails: on the program [fe 5f] nothing is thrown; the byte
    [fe] is passed over and the following PUSH0 is executed. *)
Lemma C6_unrecognized_not_rejected :
  recognized (Byte.to_N xfe) = false
  /\ EVM.run (EVM.new [xfe; x5f])
     = EVM.Returned (EVM.mk [xfe; x5f] 2 [of_Z 0])
  /\ ~ (exists e, EVM.run (EVM.new [xfe; x5f]) = EVM.Uncaught e).
Proof.
  split; [reflexivity|]. split; [reflexivity|].
  intros [e He]. vm_compute in He. discriminate.
Qed.

(** C6, amended: a byte that matches no branch is passed over: the step
    completes normally, leaves code and stack as they are and advances the
    program counter by one, and the loop goes on from there. *)
Theorem C6_unrecognized_skipped (vm : EVM.t) (b : byte) :
  nth_error (EVM.code vm) (EVM.pc vm) = Some b ->
  recognized (Byte.to_N b) = false ->
  EVM.step vm = EVM.Normal (EVM.with_pc vm (EVM.pc vm + 1))
  /\ forall fuel,
       EVM.run_loop (S fuel) vm
       = EVM.run_loop fuel (EVM.with_pc vm (EVM.pc vm + 1)).
Proof.
  intros Hb Hr.
  assert (Hs : EVM.step vm = EVM.Normal (EVM.with_pc vm (EVM.pc vm + 1))).
  { rewrite (step_fetch vm b Hb). unfold recognized in Hr.
    repeat (apply orb_false_elim in Hr; destruct Hr as [Hr ?]).
    unfold EVM.dispatch.
    repeat match goal with H : _ = false |- _ => rewrite H; clear H end.
    reflexivity. }
  split; [exact Hs|].
  intros fuel. simpl.
  pose proof (fetch_in_range vm b Hb) as Hlt. apply Nat.ltb_lt in Hlt.
  now rewrite Hlt, Hs.
Qed.

Lemma C6_unrecognized_skipped_witness :
  EVM.step (EVM.new [xfe; x5f]) = EVM.Normal (EVM.mk [xfe; x5f] 1 []).
Proof.
  apply (proj1 (C6_unrecognized_skipped (EVM.new [xfe; x5f]) xfe eq_refl eq_refl)).
Defined.

(** ** Pushing has no depth limit *)

(** C7, as stated, fails: with 1024 items on the stack, PUSH0 and PUSH1
    complete normally and leave 1025 items. *)
Lemma C7_push_beyond_1024 :
  (exists vm', EVM.run (EVM.mk [x5f] 0 (repeat (of_Z 0) 1024)) = EVM.Returned vm'
               /\ List.length (EVM.stack vm') = 1025)
  /\ (exists vm', EVM.run (EVM.mk [x60; x01] 0 (repeat (of_Z 0) 1024)) = EVM.Returned vm'
                  /\ List.length (EVM.stack vm') = 1025).
Proof.
  split; eexists; (split; [vm_compute; reflexivity | vm_compute; reflexivity]).
Qed.

(** C7, amended: whatever the depth of the stack, a push instruction (PUSH0
    to PUSH32) completes normally, appends one item to the stack, and
    advances the program counter past the opcode and its operand bytes; no
    maximum depth is enforced. *)
Theorem C7_push_unbounded (vm : EVM.t) (b : byte) :
  nth_error (EVM.code vm) (EVM.pc vm) = Some b ->
  (EVM.PUSH0 <= Byte.to_N b <= EVM.PUSH32)%N ->
  exists value,
    EVM.step vm
    = EVM.Normal (EVM.mk (EVM.code vm)
                         (EVM.pc vm + 1 + N.to_nat (Byte.to_N b - EVM.PUSH0))
                         (EVM.stack vm ++ [value]))
    /\ List.length (EVM.stack vm ++ [value]) = S (List.length (EVM.stack vm)).
Proof.
  intros Hb [Hlo Hhi].
  rewrite (step_fetch vm b Hb). unfold EVM.dispatch.
  destruct ((EVM.PUSH1 <=? Byte.to_N b) && (Byte.to_N b <=? EVM.PUSH32))%N eqn:E.
  - apply andb_prop in E. destruct E as [E1 _]. apply N.leb_le in E1.
    unfold EVM.push. eexists. split.
    + unfold EVM.with_pc, EVM.with_stack, EVM.array_push; simpl.
      unfold EVM.PUSH1, EVM.PUSH0, EVM.PUSH32 in *.
      replace (Byte.to_N b - 96 + 1)%N with (Byte.to_N b - 95)%N by (clear Hb; lia).
      reflexivity.
    + rewrite length_app; simpl; lia.
  - assert (E0 : Byte.to_N b = EVM.PUSH0).
    { apply andb_false_iff in E. unfold EVM.PUSH1, EVM.PUSH0, EVM.PUSH32 in *.
      destruct E as [E|E]; apply N.leb_gt in E; lia. }
    rewrite E0, N.sub_diag. simpl. rewrite Nat.add_0_r. eexists. split.
    + reflexivity.
    + rewrite length_app; simpl; lia.
Qed.

Lemma C7_push_unbounded_witness :
  exists value,
    EVM.step (EVM.mk [x5f] 0 (repeat (of_Z 0) 1024))
    = EVM.Normal (EVM.mk [x5f] 1 (repeat (of_Z 0) 1024 ++ [value]))
    /\ List.length (repeat (of_Z 0) 1024 ++ [value]) = 1025.
Proof.
  apply (C7_push_unbounded (EVM.mk [x5f] 0 (repeat (of_Z 0) 1024)) x5f eq_refl).
  vm_compute. split; discriminate.
Defined.

(** ** Termination of the loop of [run] *)

(** The number of operand bytes that follow an opcode. *)
Definition operand_size (op : option N) : nat :=
  match op with
  | Some op =>
      if ((EVM.PUSH1 <=? op) && (op <=? EVM.PUSH32))%N
      then N.to_nat (op - EVM.PUSH1 + 1)
      else 0
  | None => 0
  end.

Lemma pop_frame (vm vm' : EVM.t) :
  EVM.pop vm = EVM.Normal vm' ->
  EVM.code vm' = EVM.code vm /\ EVM.pc vm' = EVM.pc vm.
Proof.
  unfold EVM.pop. destruct (List.length (EVM.stack vm) =? 0); [discriminate|].
  intros H; injection H as <-. now split.
Qed.

Lemma binary_frame (f : number -> number -> number) (vm vm' : EVM.t) :
  EVM.binary f vm = EVM.Normal vm' ->
  EVM.code vm' = EVM.code vm /\ EVM.pc vm' = EVM.pc vm.
Proof.
  unfold EVM.binary. destruct (List.length (EVM.stack vm) <? 2); [discriminate|].
  destruct (EVM.array_pop (EVM.stack vm)) as [item1 s1].
  destruct (EVM.array_pop s1) as [item2 s2].
  intros H; injection H as <-. now split.
Qed.

Lemma dispatch_frame (op : option N) (vm vm' : EVM.t) :
  EVM.dispatch op vm = EVM.Normal vm' ->
  EVM.code vm' = EVM.code vm
  /\ EVM.pc vm' = EVM.pc vm + operand_size op.
Proof.
  destruct op as [op|]; simpl.
  2:{ intros H; injection H as <-. split; [reflexivity | lia]. }
  destruct ((EVM.PUSH1 <=? op) && (op <=? EVM.PUSH32))%N.
  { unfold EVM.push. intros H; injection H as <-. now split. }
  assert (Hb : forall f, EVM.binary f vm = EVM.Normal vm' ->
                 EVM.code vm' = EVM.code vm /\ EVM.pc vm' = EVM.pc vm + 0).
  { intros f H. rewrite Nat.add_0_r. exact (binary_frame f vm vm' H). }
  repeat match goal with
         | |- (if ?c then _ else _) = _ -> _ => destruct c
         end;
    first [ apply Hb
          | intros H; apply pop_frame in H; rewrite Nat.add_0_r; exact H
          | intros H; injection H as <-; simpl; split; [reflexivity | lia] ].
Qed.

Lemma step_frame (vm vm' : EVM.t) :
  EVM.step vm = EVM.Normal vm' ->
  EVM.code vm' = EVM.code vm
  /\ EVM.pc vm'
     = EVM.pc vm + 1 + operand_size (fst (EVM.nextInstruction vm)).
Proof.
  unfold EVM.step, EVM.nextInstruction; simpl.
  intros H. apply dispatch_frame in H. exact H.
Qed.

Lemma run_loop_enough (fuel : nat) :
  forall vm,
    List.length (EVM.code vm) - EVM.pc vm <= fuel ->
    (exists vm', EVM.run_loop fuel vm = EVM.Returned vm'
                 /\ EVM.code vm' = EVM.code vm
                 /\ List.length (EVM.code vm) <= EVM.pc vm')
    \/ (exists e, EVM.run_loop fuel vm = EVM.Uncaught e).
Proof.
  induction fuel as [|fuel IH]; intros vm Hfuel.
  - left. exists vm. simpl.
    destruct (EVM.pc vm <? List.length (EVM.code vm)) eqn:E.
    + apply Nat.ltb_lt in E. lia.
    + apply Nat.ltb_ge in E. auto.
  - simpl. destruct (EVM.pc vm <? List.length (EVM.code vm)) eqn:E.
    + destruct (EVM.step vm) as [vm1|e] eqn:Hs; [|right; eauto].
      destruct (step_frame vm vm1 Hs) as [Hc Hp].
      destruct (IH vm1) as [(vm' & Hr & Hc' & Hp') | [e He]].
      * rewrite Hc, Hp. lia.
      * left. exists vm'. rewrite <- Hc. rewrite Hc' . auto.
      * right; eauto.
    + apply Nat.ltb_ge in E. left. exists vm. auto.
Qed.

Lemma run_loop_more_fuel (fuel : nat) :
  forall vm fuel',
    List.length (EVM.code vm) - EVM.pc vm <= fuel -> fuel <= fuel' ->
    EVM.run_loop fuel' vm = EVM.run_loop fuel vm.
Proof.
  induction fuel as [|fuel IH]; intros vm fuel' Hfuel Hle.
  - assert (E : (EVM.pc vm <? List.length (EVM.code vm)) = false)
      by (apply Nat.ltb_ge; lia).
    destruct fuel'; simpl; now rewrite E.
  - destruct fuel' as [|fuel']; [lia|]. simpl.
    destruct (EVM.pc vm <? List.length (EVM.code vm)); [|reflexivity].
    destruct (EVM.step vm) as [vm1|e] eqn:Hs; [|reflexivity].
    destruct (step_frame vm vm1 Hs) as [Hc Hp].
    apply IH; [rewrite Hc, Hp|]; lia.
Qed.

(** C10: from every state (every bytecode, program counter and stack) the
    loop of [run] terminates.  An iteration that completes normally keeps the
    code and advances the program counter by one plus the operand size of
    the opcode, hence by at least one; [run] either returns, with the
    program counter at or past the end of the code, or ends with an uncaught
    exception; and a larger iteration bound does not change its result. *)
Theorem C10_run_terminates (vm : EVM.t) :
  EVM.pc (snd (EVM.nextInstruction vm)) = EVM.pc vm + 1
  /\ (List.length (EVM.code vm) <= EVM.pc vm -> EVM.run vm = EVM.Returned vm)
  /\ (forall vm', EVM.step vm = EVM.Normal vm' ->
     EVM.code vm' = EVM.code vm
     /\ EVM.pc vm' = EVM.pc vm + 1 + operand_size (fst (EVM.nextInstruction vm))
     /\ EVM.pc vm < EVM.pc vm')
  /\ ((exists vm', EVM.run vm = EVM.Returned vm'
                   /\ List.length (EVM.code vm') <= EVM.pc vm')
      \/ (exists e, EVM.run vm = EVM.Uncaught e))
  /\ EVM.run vm <> EVM.OutOfFuel
  /\ (forall fuel, List.length (EVM.code vm) - EVM.pc vm <= fuel ->
        EVM.run_loop fuel vm = EVM.run vm).
Proof.
  assert (Hrun := run_loop_enough _ vm (Nat.le_refl _)).
  fold (EVM.run vm) in Hrun.
  split; [reflexivity|].
  split.
  { intros Hend. unfold EVM.run.
    replace (List.length (EVM.code vm) - EVM.pc vm) with 0 by lia.
    simpl. apply Nat.ltb_ge in Hend. now rewrite Hend. }
  split; [|split; [|split]].
  - intros vm' Hs. destruct (step_frame vm vm' Hs) as [Hc Hp].
    repeat split; auto. lia.
  - destruct Hrun as [(vm' & Hr & Hc & Hp) | [e He]]; [left | right; eauto].
    exists vm'. rewrite Hc. auto.
  - destruct Hrun as [(vm' & Hr & _) | [e He]]; congruence.
  - intros fuel Hfuel. unfold EVM.run.
    now apply run_loop_more_fuel with (fuel := List.length (EVM.code vm) - EVM.pc vm).
Qed.

Lemma C10_run_terminates_witness :
  EVM.pc (EVM.new [x61; x01; x02; x50]) < 3
  /\ EVM.run_loop 100 (EVM.new [x61; x01; x02; x50])
     = EVM.run (EVM.new [x61; x01; x02; x50])
  /\ EVM.run (EVM.mk [x61; x01; x02; x50] 4 [])
     = EVM.Returned (EVM.mk [x61; x01; x02; x50] 4 []).
Proof.
  pose proof (C10_run_terminates (EVM.new [x61; x01; x02; x50]))
    as (_ & _ & Hstep & _ & _ & Hfuel).
  pose proof (C10_run_terminates (EVM.mk [x61; x01; x02; x50] 4 []))
    as (_ & Hend & _).
  split; [|split].
  - apply (Hstep (EVM.mk [x61; x01; x02; x50] 3 [of_Z 258]) eq_refl).
  - apply Hfuel. simpl; lia.
  - apply Hend. simpl; lia.
Defined.

(** ** The operand of a push instruction *)

(** The unsigned big-endian value of a sequence of bytes. *)
Definition big_endian (data : list byte) : Z :=
  fold_left (fun acc b => (256 * acc + Z.of_N (Byte.to_N b))%Z) data 0%Z.

(** The operand that a PUSH of [size] bytes would have if the bytes missing
    after [avail] were zero: [avail] is the high-order end. *)
Definition right_padded (size : nat) (avail : list byte) : Z :=
  big_endian (avail ++ repeat x00 (size - List.length avail)).

(** The two hexadecimal digits written for one byte by [push]. *)
Definition hex2 (b : byte) : string := padStart 2 "0" (toString16 b).

Lemma hex2_digits (b : byte) :
  let hi := (Byte.to_N b / 16)%N in
  let lo := (Byte.to_N b mod 16)%N in
  hex2 b = String (hex_digit hi) (String (hex_digit lo) EmptyString)
  /\ digit16 (hex_digit hi) = Some (Z.of_N hi)
  /\ digit16 (hex_digit lo) = Some (Z.of_N lo)
  /\ (16 * Z.of_N hi + Z.of_N lo = Z.of_N (Byte.to_N b))%Z.
Proof.
  destruct b; vm_compute; auto.
Qed.

Lemma digits16_hex2 (b : byte) (s : string) (count : nat) (acc : Z) :
  digits16 (hex2 b ++ s) count acc
  = digits16 s (S (S count)) (256 * acc + Z.of_N (Byte.to_N b))%Z.
Proof.
  destruct (hex2_digits b) as (Hs & Hhi & Hlo & Hv).
  rewrite Hs. cbn [append digits16]. rewrite Hhi, Hlo.
  f_equal. lia.
Qed.

Lemma append_empty_r (s : string) : (s ++ "")%string = s.
Proof. induction s; simpl; congruence. Qed.

Lemma join_cons (x : string) (xs : list string) :
  join (x :: xs) = (x ++ join xs)%string.
Proof.
  unfold join; simpl. destruct xs; simpl; [now rewrite append_empty_r | reflexivity].
Qed.

Lemma digits16_join (data : list byte) :
  forall count acc,
    digits16 (join (map hex2 data)) count acc
    = (2 * List.length data + count,
       fold_left (fun acc b => (256 * acc + Z.of_N (Byte.to_N b))%Z) data acc).
Proof.
  induction data as [|b data IH]; intros count acc.
  - reflexivity.
  - cbn [map]. rewrite join_cons.
    destruct data as [|b' data'].
    + change (join (map hex2 [])) with EmptyString.
      rewrite digits16_hex2. reflexivity.
    + rewrite digits16_hex2, IH. cbn [fold_left List.length]. f_equal. lia.
Qed.

(** What [push] computes from the bytes it sliced out of the code. *)
Lemma parseInt16_hex (data : list byte) :
  parseInt16 (join (map hex2 data))
  = match data with
    | [] => NaN
    | _ => of_Z (big_endian data)
    end.
Proof.
  unfold parseInt16. rewrite digits16_join.
  destruct data as [|b data]; [reflexivity|].
  cbn [List.length]. replace (2 * S (List.length data) + 0) with (S (S (2 * List.length data))) by lia.
  reflexivity.
Qed.

(** C5, as stated, fails: for PUSH2 followed by the single byte [ab], the
    value pushed is [0xab], not the right-padded operand [0xab00]; and for a
    PUSH1 that ends the code, the value pushed is [NaN], not zero. *)
Lemma C5_no_right_padding :
  EVM.run (EVM.new [x61; xab]) = EVM.Returned (EVM.mk [x61; xab] 3 [of_Z 0xab])
  /\ right_padded 2 [xab] = 0xab00%Z
  /\ of_Z 0xab <> of_Z (right_padded 2 [xab])
  /\ EVM.run (EVM.new [x60]) = EVM.Returned (EVM.mk [x60] 2 [NaN])
  /\ NaN <> of_Z (right_padded 1 []).
Proof.
  repeat split; try (vm_compute; reflexivity); vm_compute; discriminate.
Qed.

(** C5, amended: for a PUSH-N opcode (N = 1..32) whose operand runs past the
    end of the bytecode while at least one operand byte is present, the value
    pushed is the Number of the big-endian integer formed by the bytes that
    are present, taken alone (nothing is padded), and the program counter
    advances by N past the opcode. *)
Theorem C5_truncated_push (vm : EVM.t) (b : byte) :
  nth_error (EVM.code vm) (EVM.pc vm) = Some b ->
  (EVM.PUSH1 <= Byte.to_N b <= EVM.PUSH32)%N ->
  List.length (EVM.code vm) < EVM.pc vm + 1 + N.to_nat (Byte.to_N b - EVM.PUSH1 + 1) ->
  EVM.pc vm + 1 < List.length (EVM.code vm) ->
  EVM.step vm
  = EVM.Normal
      (EVM.mk (EVM.code vm)
              (EVM.pc vm + 1 + N.to_nat (Byte.to_N b - EVM.PUSH1 + 1))
              (EVM.stack vm ++ [of_Z (big_endian (skipn (EVM.pc vm + 1) (EVM.code vm)))])).
Proof.
  intros Hb [Hlo Hhi] Hpast Hsome.
  rewrite (step_fetch vm b Hb). unfold EVM.dispatch.
  apply N.leb_le in Hlo, Hhi. rewrite Hlo, Hhi. cbn [andb].
  unfold EVM.push, EVM.with_stack, EVM.with_pc, EVM.array_push, EVM.slice.
  cbn [EVM.code EVM.pc EVM.stack].
  fold hex2. rewrite parseInt16_hex.
  set (size := N.to_nat (Byte.to_N b - EVM.PUSH1 + 1)) in *.
  set (avail := skipn (EVM.pc vm + 1) (EVM.code vm)).
  assert (Hlen : List.length avail = List.length (EVM.code vm) - (EVM.pc vm + 1))
    by (unfold avail; now rewrite length_skipn).
  replace (EVM.pc vm + 1 + size - (EVM.pc vm + 1)) with size by lia.
  rewrite firstn_all2 by (clear Hb; lia).
  destruct avail as [|b0 avail']; [simpl in Hlen; clear Hb; lia | reflexivity].
Qed.

Lemma C5_truncated_push_witness :
  EVM.step (EVM.new [x62; x01; x02])
  = EVM.Normal (EVM.mk [x62; x01; x02] 4 [of_Z 0x0102]).
Proof.
  apply (C5_truncated_push (EVM.new [x62; x01; x02]) x62 eq_refl).
  - vm_compute. split; discriminate.
  - vm_compute. lia.
  - vm_compute. lia.
Defined.

(** ** Algebraic properties of [add] and [sub] *)

Section NumberFacts.

Lemma SFadd_comm (x y : number) : JS.add x y = JS.add y x.
Proof.
  unfold JS.add.
  destruct x as [sx|sx| |sx mx ex], y as [sy|sy| |sy my ey];
    try reflexivity;
    try (destruct sx, sy; reflexivity).
  unfold SFadd. rewrite (Z.min_comm ey ex). f_equal. apply Z.add_comm.
Qed.

Lemma digits2_pos_size (m : positive) : digits2_pos m = Pos.size m.
Proof. induction m; simpl; congruence. Qed.

Lemma digits2_upper (m : positive) : (Zpos m < 2 ^ Zpos (digits2_pos m))%Z.
Proof.
  rewrite digits2_pos_size.
  pose proof (Pos.size_gt m) as H.
  apply Pos2Z.pos_lt_pos in H. rewrite Pos2Z.inj_pow in H. exact H.
Qed.

Lemma digits2_lower (m : positive) : (2 ^ Zpos (digits2_pos m) <= 2 * Zpos m)%Z.
Proof.
  rewrite digits2_pos_size.
  pose proof (Pos.size_le m) as H.
  apply Pos2Z.pos_le_pos in H. rewrite Pos2Z.inj_pow in H. exact H.
Qed.

(** Rounding a mantissa and exponent that already form a binary64 number
    changes nothing. *)
Lemma binary_round_bounded (s : bool) (m : positive) (e : Z) :
  bounded prec emax m e = true ->
  binary_round prec emax s m e = S754_finite s m e.
Proof.
  unfold bounded, canonical_mantissa. intros H.
  apply andb_prop in H. destruct H as [Hc He]. apply Z.eqb_eq in Hc.
  unfold binary_round. rewrite Hc.
  unfold shl_align. rewrite Z.sub_diag.
  unfold binary_round_aux, shr_fexp. cbn [Zdigits2 shr_record_of_loc].
  rewrite Hc, Z.sub_diag. cbn [shr shr_m loc_of_shr_record round_nearest_even].
  cbn [Zdigits2 shr_record_of_loc]. rewrite Hc, Z.sub_diag. cbn [shr shr_m].
  now rewrite He.
Qed.

Lemma compare_cont_lt (m q : positive) :
  match Pos.compare_cont Eq m q with Lt => true | _ => false end = true ->
  (Zpos m < Zpos q)%Z.
Proof.
  change (Pos.compare_cont Eq m q) with (Pos.compare m q).
  destruct (Pos.compare_spec m q) as [E|E|E]; intros H; try discriminate H.
  now apply Pos2Z.pos_lt_pos.
Qed.

End NumberFacts.

(** The Numbers in the range of a 256-bit word: zero, or a positive binary64
    number below [2 ** 256]. *)
Definition in_word_range (a : number) : bool :=
  match a with
  | S754_zero s => negb s
  | S754_finite s m e => negb s && bounded prec emax m e && JS.lt a pow_2_256
  | _ => false
  end.

Lemma pow_2_256_eq : pow_2_256 = S754_finite false 4503599627370496 204.
Proof. reflexivity. Qed.

Lemma rem_pow_2_256_small (a : number) :
  in_word_range a = true -> rem a pow_2_256 = a.
Proof.
  rewrite pow_2_256_eq.
  destruct a as [s|s| |s m e]; cbn [in_word_range]; try discriminate;
    [reflexivity|].
  intros H.
  apply andb_prop in H. destruct H as [H Hlt].
  apply andb_prop in H. destruct H as [Hs Hb].
  destruct s; [discriminate|]. clear Hs.
  rewrite pow_2_256_eq in Hlt. unfold JS.lt, SFltb, SFcompare in Hlt.
  pose proof Hb as Hb'.
  unfold bounded, canonical_mantissa, fexp, SpecFloat.emin in Hb'.
  apply andb_prop in Hb'. destruct Hb' as [Hc _]. apply Z.eqb_eq in Hc.
  unfold prec, emax in Hc.
  pose proof (digits2_upper m) as Hup. pose proof (digits2_lower m) as Hlo.
  set (d := Zpos (digits2_pos m)) in *.
  assert (Hd : (0 < d)%Z) by (unfold d; lia).
  assert (He : (e < 204)%Z).
  { revert Hlt. destruct (Z.compare_spec e 204) as [E|E|E];
      [|intros _; exact E|intros Hlt; discriminate Hlt].
    intros Hlt. apply compare_cont_lt in Hlt.
    assert (Hd53 : d = 53%Z) by lia.
    rewrite Hd53 in Hlo. change (2 ^ 53)%Z with 9007199254740992%Z in Hlo. lia. }
  assert (Hd53 : (d <= 53)%Z) by lia.
  assert (Hm : (Zpos m < 2 ^ 53)%Z).
  { apply Z.lt_le_trans with (1 := Hup). apply Z.pow_le_mono_r; lia. }
  assert (Hy : (2 <= 2 ^ (204 - e))%Z).
  { change 2%Z with (2 ^ 1)%Z at 1. apply Z.pow_le_mono_r; lia. }
  unfold rem. cbv zeta.
  rewrite Z.min_l by lia. rewrite Z.sub_diag, Z.pow_0_r, Z.mul_1_r.
  rewrite Z.rem_small.
  2:{ split; [lia|].
      change (2 ^ 53)%Z with 9007199254740992%Z in Hm. nia. }
  cbn [Z.eqb cond_Zopp binary_normalize].
  now apply binary_round_bounded.
Qed.

Lemma addResult_comm (a b : number) : EVM.addResult a b = EVM.addResult b a.
Proof. unfold EVM.addResult. now rewrite SFadd_comm. Qed.

Lemma addResult_zero (a : number) :
  in_word_range a = true -> EVM.addResult a (of_Z 0) = a.
Proof.
  intros H. unfold EVM.addResult.
  replace (JS.add a (of_Z 0)) with a.
  - now apply rem_pow_2_256_small.
  - destruct a as [[|]| | |s m e]; try discriminate H; reflexivity.
Qed.

(** PUSH32 of the word [2^255]: the byte [80] followed by 31 zero bytes. *)
Definition push32_2_255 : list byte := x7f :: x80 :: repeat x00 31.

(** The program that pushes [b], [b] and [a] for [a = b = 2^255], then
    executes ADD and SUB: it computes [sub (add a b) b]. *)
Definition roundtrip_program : list byte :=
  push32_2_255 ++ push32_2_255 ++ push32_2_255 ++ [x01; x03].

(** C9: [add] is commutative, and adding zero to a Number in the range of a
    word gives it back; but subtracting [b] again after adding it does not
    give [a] back.  For [a = b = 2^255] the sum wraps to [0] and the
    subtraction then yields the negative number [-(2^255)]; for [a = 1] and
    [b = 2^53] the sum is rounded to [2^53] and the subtraction yields [0]. *)
Theorem C9_add_sub_algebra :
  (forall a b, EVM.addResult a b = EVM.addResult b a)
  /\ (forall a, in_word_range a = true -> EVM.addResult a (of_Z 0) = a)
  /\ in_word_range (of_Z (2 ^ 255)) = true
  /\ EVM.addResult (of_Z (2 ^ 255)) (of_Z (2 ^ 255)) = of_Z 0
  /\ EVM.subResult (EVM.addResult (of_Z (2 ^ 255)) (of_Z (2 ^ 255))) (of_Z (2 ^ 255))
     = of_Z (- 2 ^ 255)
  /\ of_Z (- 2 ^ 255) <> of_Z (2 ^ 255)
  /\ EVM.run (EVM.new roundtrip_program)
     = EVM.Returned (EVM.mk roundtrip_program 101 [of_Z (- 2 ^ 255)])
  /\ in_word_range (of_Z 1) = true
  /\ in_word_range (of_Z (2 ^ 53)) = true
  /\ EVM.subResult (EVM.addResult (of_Z 1) (of_Z (2 ^ 53))) (of_Z (2 ^ 53)) = of_Z 0
  /\ of_Z 0 <> of_Z 1.
Proof.
  split; [exact addResult_comm|].
  split; [exact addResult_zero|].
  repeat split; try (vm_compute; reflexivity); vm_compute; discriminate.
Qed.

Lemma C9_add_sub_algebra_witness :
  EVM.addResult (of_Z 7) (of_Z 0) = of_Z 7.
Proof.
  apply (proj1 (proj2 C9_add_sub_algebra) (of_Z 7)). reflexivity.
Defined.

(** * Further properties of the interpreter *)

(** ** Push instructions with their operand in the code *)

(** The operand size of the PUSH-N opcode [op]. *)
Definition push_size (op : N) : nat := N.to_nat (op - EVM.PUSH1 + 1).

Lemma step_push (vm : EVM.t) (b : byte) :
  nth_error (EVM.code vm) (EVM.pc vm) = Some b ->
  (EVM.PUSH1 <= Byte.to_N b <= EVM.PUSH32)%N ->
  EVM.step vm
  = EVM.Normal
      (EVM.mk (EVM.code vm)
         (EVM.pc vm + 1 + push_size (Byte.to_N b))
         (EVM.stack vm
          ++ [parseInt16
                (join (map hex2
                         (EVM.slice (EVM.code vm) (EVM.pc vm + 1)
                            (EVM.pc vm + 1 + push_size (Byte.to_N b)))))])).
Proof.
  intros Hb [Hlo Hhi].
  rewrite (step_fetch vm b Hb). unfold EVM.dispatch.
  apply N.leb_le in Hlo, Hhi. rewrite Hlo, Hhi. reflexivity.
Qed.

Lemma push_size_bounds (op : N) :
  (EVM.PUSH1 <= op <= EVM.PUSH32)%N -> 1 <= push_size op <= 32.
Proof.
  unfold push_size, EVM.PUSH1, EVM.PUSH32. lia.
Qed.

Lemma slice_length (c : list byte) (start stop : nat) :
  stop <= List.length c ->
  List.length (EVM.slice c start stop) = stop - start.
Proof.
  intros H. unfold EVM.slice. rewrite length_firstn, length_skipn. lia.
Qed.

Lemma big_endian_snoc (data : list byte) (b : byte) :
  big_endian (data ++ [b]) = (256 * big_endian data + Z.of_N (Byte.to_N b))%Z.
Proof. unfold big_endian. now rewrite fold_left_app. Qed.

Lemma to_N_lt_256 (b : byte) : (Byte.to_N b < 256)%N.
Proof. pose proof (Byte.to_N_bounded b). lia. Qed.

Lemma big_endian_bounds (data : list byte) :
  (0 <= big_endian data < 256 ^ Z.of_nat (List.length data))%Z.
Proof.
  induction data as [|b data IH] using rev_ind.
  - cbn. lia.
  - rewrite big_endian_snoc, length_app, Nat2Z.inj_add. cbn [List.length].
    rewrite Z.pow_add_r by lia. change (256 ^ Z.of_nat 1)%Z with 256%Z.
    pose proof (to_N_lt_256 b). lia.
Qed.

Lemma parseInt16_hex_nonempty (data : list byte) :
  data <> [] -> parseInt16 (join (map hex2 data)) = of_Z (big_endian data).
Proof.
  intros H. rewrite parseInt16_hex. now destruct data.
Qed.

(** X1: a PUSH-N instruction (N = 1..32) whose N operand bytes all lie in
    the code pushes the Number nearest to the big-endian integer of these N
    bytes, an integer from 0 to 256^N - 1, leaves the stack below unchanged
    and moves the program counter past the operand. *)
Theorem push_reads_operand (vm : EVM.t) (b : byte) :
  nth_error (EVM.code vm) (EVM.pc vm) = Some b ->
  (EVM.PUSH1 <= Byte.to_N b <= EVM.PUSH32)%N ->
  EVM.pc vm + 1 + push_size (Byte.to_N b) <= List.length (EVM.code vm) ->
  let operand :=
    EVM.slice (EVM.code vm) (EVM.pc vm + 1)
      (EVM.pc vm + 1 + push_size (Byte.to_N b)) in
  EVM.step vm
  = EVM.Normal
      (EVM.mk (EVM.code vm)
         (EVM.pc vm + 1 + push_size (Byte.to_N b))
         (EVM.stack vm ++ [of_Z (big_endian operand)]))
  /\ List.length operand = push_size (Byte.to_N b)
  /\ (0 <= big_endian operand < 256 ^ Z.of_nat (push_size (Byte.to_N b)))%Z.
Proof.
  intros Hb Hop Hfit operand.
  pose proof (push_size_bounds _ Hop) as Hsz.
  assert (Hlen : List.length operand = push_size (Byte.to_N b)).
  { unfold operand. rewrite slice_length by exact Hfit. clear Hb. lia. }
  split; [|split; [exact Hlen|]].
  - rewrite (step_push vm b Hb Hop). fold operand.
    rewrite parseInt16_hex_nonempty; [reflexivity|].
    intros E. rewrite E in Hlen. simpl in Hlen. clear Hb. lia.
  - rewrite <- Hlen. apply big_endian_bounds.
Qed.

Lemma push_reads_operand_witness :
  EVM.step (EVM.mk [x50; x61; x01; x02; x01] 1 [of_Z 7])
  = EVM.Normal (EVM.mk [x50; x61; x01; x02; x01] 4 [of_Z 7; of_Z 258]).
Proof.
  apply (push_reads_operand (EVM.mk [x50; x61; x01; x02; x01] 1 [of_Z 7]) x61 eq_refl).
  - vm_compute. split; discriminate.
  - vm_compute. lia.
Defined.

(** ** The effect of POP and of the binary instructions on the stack *)

(** The function a binary opcode applies to the first- and second-popped
    items, read off the branches of [run] and the bodies of the methods. *)
Definition binary_result (op : N) : option (number -> number -> number) :=
  if (op =? EVM.ADD)%N then Some EVM.addResult
  else if (op =? EVM.MUL)%N then Some EVM.mulResult
  else if (op =? EVM.SUB)%N then Some EVM.subResult
  else if (op =? EVM.DIV)%N then Some EVM.divResult
  else if (op =? EVM.MOD)%N then Some EVM.modResult
  else if (op =? EVM.LT)%N then Some EVM.ltResult
  else if (op =? EVM.GT)%N then Some EVM.gtResult
  else if (op =? EVM.EQ)%N then Some EVM.eqResult
  else None.

Lemma dispatch_binary (op : N) (f : number -> number -> number) (vm : EVM.t) :
  binary_result op = Some f ->
  EVM.dispatch (Some op) vm = EVM.binary f vm.
Proof.
  unfold binary_result.
  repeat match goal with
         | |- (if (op =? ?c)%N then _ else _) = _ -> _ =>
             destruct (N.eqb_spec op c) as [->|_];
             [intros H; injection H as <-; reflexivity|]
         end.
  discriminate.
Qed.

Lemma step_binary (c : list byte) (p : nat) (b : byte)
      (f : number -> number -> number) (s : list number)
      (item1 item2 : number) :
  nth_error c p = Some b ->
  binary_result (Byte.to_N b) = Some f ->
  EVM.step (EVM.mk c p (s ++ [item2; item1]))
  = EVM.Normal (EVM.mk c (p + 1) (s ++ [f item1 item2])).
Proof.
  intros Hb Hf.
  rewrite (step_fetch (EVM.mk c p (s ++ [item2; item1])) b Hb),
    (dispatch_binary _ f _ Hf).
  unfold EVM.with_pc; simpl. apply binary_top2.
Qed.

(** X2: a binary instruction (ADD, MUL, SUB, DIV, MOD, LT, GT, EQ) executed
    on a stack with the items [item2] and, on top, [item1] replaces these two
    by the one result computed from them, keeps everything below, leaves the
    code as it is and advances the program counter by one. *)
Theorem binary_step_effect (vm : EVM.t) (b : byte)
        (f : number -> number -> number) (s : list number)
        (item1 item2 : number) :
  nth_error (EVM.code vm) (EVM.pc vm) = Some b ->
  binary_result (Byte.to_N b) = Some f ->
  EVM.stack vm = s ++ [item2; item1] ->
  EVM.step vm
  = EVM.Normal (EVM.mk (EVM.code vm) (EVM.pc vm + 1) (s ++ [f item1 item2])).
Proof.
  intros Hb Hf Hs. destruct vm as [c p st]. simpl in *. subst st.
  now apply (step_binary c p b).
Qed.

Lemma binary_step_effect_witness :
  EVM.step (EVM.mk [x10] 0 [of_Z 9; of_Z 2; of_Z 6])
  = EVM.Normal (EVM.mk [x10] 1 [of_Z 9; EVM.ltResult (of_Z 6) (of_Z 2)]).
Proof.
  apply (binary_step_effect (EVM.mk [x10] 0 [of_Z 9; of_Z 2; of_Z 6]) x10
           EVM.ltResult [of_Z 9] (of_Z 6) (of_Z 2) eq_refl eq_refl eq_refl).
Defined.

Lemma step_pop (c : list byte) (p : nat) (b : byte) (s : list number)
      (x : number) :
  nth_error c p = Some b ->
  Byte.to_N b = EVM.POP ->
  EVM.step (EVM.mk c p (s ++ [x])) = EVM.Normal (EVM.mk c (p + 1) s).
Proof.
  intros Hb Hop. rewrite (step_fetch (EVM.mk c p (s ++ [x])) b Hb), Hop.
  simpl. unfold EVM.pop, EVM.with_pc, EVM.with_stack; simpl.
  rewrite length_app; simpl.
  replace (List.length s + 1 =? 0) with false by (symmetry; apply Nat.eqb_neq; lia).
  change (s ++ [x]) with (EVM.array_push s x). now rewrite array_pop_push.
Qed.

(** X3: POP executed on a non-empty stack removes exactly the top item, keeps
    the items below, and advances the program counter by one. *)
Theorem pop_step_effect (vm : EVM.t) (b : byte) (s : list number) (x : number) :
  nth_error (EVM.code vm) (EVM.pc vm) = Some b ->
  Byte.to_N b = EVM.POP ->
  EVM.stack vm = s ++ [x] ->
  EVM.step vm = EVM.Normal (EVM.mk (EVM.code vm) (EVM.pc vm + 1) s).
Proof.
  intros Hb Hop Hs. destruct vm as [c p st]. simpl in *. subst st.
  now apply (step_pop c p b).
Qed.

Lemma pop_step_effect_witness :
  EVM.step (EVM.mk [x50] 0 [of_Z 1; of_Z 2])
  = EVM.Normal (EVM.mk [x50] 1 [of_Z 1]).
Proof.
  apply (pop_step_effect (EVM.mk [x50] 0 [of_Z 1; of_Z 2]) x50 [of_Z 1] (of_Z 2)
           eq_refl eq_refl eq_refl).
Defined.

Lemma step_any_push (vm : EVM.t) (b : byte) :
  nth_error (EVM.code vm) (EVM.pc vm) = Some b ->
  (EVM.PUSH0 <= Byte.to_N b <= EVM.PUSH32)%N ->
  exists value,
    EVM.step vm
    = EVM.Normal (EVM.mk (EVM.code vm)
                    (EVM.pc vm + 1 + N.to_nat (Byte.to_N b - EVM.PUSH0))
                    (EVM.stack vm ++ [value])).
Proof.
  intros Hb [Hlo Hhi].
  destruct (N.eq_dec (Byte.to_N b) EVM.PUSH0) as [E|E].
  - rewrite (step_fetch vm b Hb), E. eexists. simpl.
    unfold EVM.with_stack, EVM.with_pc, EVM.array_push; simpl.
    now rewrite Nat.add_0_r.
  - assert (Hop : (EVM.PUSH1 <= Byte.to_N b <= EVM.PUSH32)%N).
    { unfold EVM.PUSH0, EVM.PUSH1, EVM.PUSH32 in *. clear Hb. lia. }
    rewrite (step_push vm b Hb Hop). eexists.
    replace (N.to_nat (Byte.to_N b - EVM.PUSH0)) with (push_size (Byte.to_N b)).
    + reflexivity.
    + unfold push_size, EVM.PUSH0, EVM.PUSH1, EVM.PUSH32 in *. clear Hb. lia.
Qed.

(** X4: a push instruction (PUSH0 to PUSH32) immediately followed by POP
    leaves the stack exactly as it was: after the two iterations the program
    counter stands behind the POP and the stack is the initial one, whatever
    was pushed. *)
Theorem push_then_pop (vm : EVM.t) (b b' : byte) :
  nth_error (EVM.code vm) (EVM.pc vm) = Some b ->
  (EVM.PUSH0 <= Byte.to_N b <= EVM.PUSH32)%N ->
  nth_error (EVM.code vm)
    (EVM.pc vm + 1 + N.to_nat (Byte.to_N b - EVM.PUSH0)) = Some b' ->
  Byte.to_N b' = EVM.POP ->
  exists vm1,
    EVM.step vm = EVM.Normal vm1
    /\ EVM.step vm1
       = EVM.Normal
           (EVM.mk (EVM.code vm)
              (EVM.pc vm + 1 + N.to_nat (Byte.to_N b - EVM.PUSH0) + 1)
              (EVM.stack vm)).
Proof.
  intros Hb Hop Hb' Hpop.
  destruct (step_any_push vm b Hb Hop) as [value Hs].
  eexists. split; [exact Hs|].
  exact (step_pop (EVM.code vm)
           (EVM.pc vm + 1 + N.to_nat (Byte.to_N b - EVM.PUSH0))
           b' (EVM.stack vm) value Hb' Hpop).
Qed.

Lemma push_then_pop_witness :
  exists vm1,
    EVM.step (EVM.mk [x61; x01; x02; x50] 0 [of_Z 5]) = EVM.Normal vm1
    /\ EVM.step vm1 = EVM.Normal (EVM.mk [x61; x01; x02; x50] 4 [of_Z 5]).
Proof.
  apply (push_then_pop (EVM.mk [x61; x01; x02; x50] 0 [of_Z 5]) x61 x50 eq_refl).
  - vm_compute. split; discriminate.
  - reflexivity.
  - reflexivity.
Defined.

(** ** What a whole run keeps *)

(** A property kept by every iteration that completes normally holds of the
    instance that [run] returns. *)
Lemma run_loop_invariant (P : EVM.t -> Prop) :
  (forall vm vm',
      P vm -> EVM.pc vm < List.length (EVM.code vm) ->
      EVM.step vm = EVM.Normal vm' -> P vm') ->
  forall fuel vm vm',
    P vm -> EVM.run_loop fuel vm = EVM.Returned vm' -> P vm'.
Proof.
  intros Hstep. induction fuel as [|fuel IH]; intros vm vm' HP; simpl.
  - destruct (EVM.pc vm <? List.length (EVM.code vm)); [discriminate|].
    intros H; injection H as <-. exact HP.
  - destruct (EVM.pc vm <? List.length (EVM.code vm)) eqn:E.
    + apply Nat.ltb_lt in E.
      destruct (EVM.step vm) as [vm1|e] eqn:Hs; [|discriminate].
      apply IH. exact (Hstep vm vm1 HP E Hs).
    + intros H; injection H as <-. exact HP.
Qed.

Lemma operand_size_le_32 (op : option N) : operand_size op <= 32.
Proof.
  destruct op as [op|]; simpl; [|lia].
  destruct ((EVM.PUSH1 <=? op) && (op <=? EVM.PUSH32))%N eqn:E; [|lia].
  apply andb_prop in E. destruct E as [E1 E2].
  apply N.leb_le in E1, E2. unfold EVM.PUSH1, EVM.PUSH32 in *. lia.
Qed.

Lemma binary_stack_length (f : number -> number -> number) (vm vm' : EVM.t) :
  EVM.binary f vm = EVM.Normal vm' ->
  S (List.length (EVM.stack vm')) = List.length (EVM.stack vm).
Proof.
  destruct (Nat.lt_ge_cases (List.length (EVM.stack vm)) 2) as [H|H].
  - destruct vm as [c p s]. simpl in H. rewrite (binary_underflow c p f s H).
    discriminate.
  - destruct vm as [c p s]. simpl in *.
    destruct (top2_shape s H) as (s' & i2 & i1 & ->).
    rewrite binary_top2. intros E; injection E as <-. simpl.
    rewrite !length_app. simpl. lia.
Qed.

Lemma pop_stack_length (vm vm' : EVM.t) :
  EVM.pop vm = EVM.Normal vm' ->
  S (List.length (EVM.stack vm')) = List.length (EVM.stack vm).
Proof.
  unfold EVM.pop. destruct vm as [c p s]; simpl.
  destruct (rev s) as [|x r] eqn:E.
  - apply (f_equal (@rev number)) in E. rewrite rev_involutive in E. subst s.
    discriminate.
  - apply (f_equal (@rev number)) in E. rewrite rev_involutive in E. subst s.
    simpl. rewrite length_app; simpl.
    replace (List.length (rev r) + 1 =? 0) with false
      by (symmetry; apply Nat.eqb_neq; lia).
    intros H; injection H as <-. simpl.
    change (rev r ++ [x]) with (EVM.array_push (rev r) x).
    rewrite array_pop_push. simpl. lia.
Qed.

(** The depth of the stack changes by at most one in an iteration. *)
Lemma step_stack_length (vm vm' : EVM.t) :
  EVM.step vm = EVM.Normal vm' ->
  List.length (EVM.stack vm') <= List.length (EVM.stack vm) + 1
  /\ List.length (EVM.stack vm) <= List.length (EVM.stack vm') + 1.
Proof.
  unfold EVM.step, EVM.nextInstruction.
  destruct (option_map Byte.to_N (nth_error (EVM.code vm) (EVM.pc vm))) as [op|];
    simpl.
  2:{ intros H; injection H as <-. simpl. lia. }
  destruct ((EVM.PUSH1 <=? op) && (op <=? EVM.PUSH32))%N.
  { unfold EVM.push. intros H; injection H as <-. simpl.
    unfold EVM.array_push. rewrite length_app. simpl. lia. }
  assert (Hb : forall f v, EVM.binary f v = EVM.Normal vm' ->
                 EVM.stack v = EVM.stack vm ->
                 List.length (EVM.stack vm') <= List.length (EVM.stack vm) + 1
                 /\ List.length (EVM.stack vm) <= List.length (EVM.stack vm') + 1).
  { intros f v H E. apply binary_stack_length in H. rewrite E in H. lia. }
  repeat match goal with
         | |- (if ?c then _ else _) = _ -> _ => destruct c
         end;
    first [ intros H; apply (Hb _ _ H); reflexivity
          | intros H; apply pop_stack_length in H; simpl in H; lia
          | intros H; injection H as <-; simpl;
            unfold EVM.array_push; try rewrite length_app; simpl; lia ].
Qed.

(** X5: when [run] returns, the bytecode is the one it started with, the
    program counter has not decreased and stands at or past the end of the
    code, by at most 32 bytes if it started inside the code, and the stack has
    grown by at most one item per byte of code that was left to execute. *)
Theorem run_keeps_code_and_bounds (vm vm' : EVM.t) :
  EVM.run vm = EVM.Returned vm' ->
  EVM.code vm' = EVM.code vm
  /\ EVM.pc vm <= EVM.pc vm'
  /\ List.length (EVM.code vm) <= EVM.pc vm'
  /\ (EVM.pc vm <= List.length (EVM.code vm) ->
      EVM.pc vm' <= List.length (EVM.code vm) + 32)
  /\ List.length (EVM.stack vm')
     <= List.length (EVM.stack vm) + (List.length (EVM.code vm) - EVM.pc vm).
Proof.
  intros Hrun.
  set (P := fun v : EVM.t =>
              EVM.code v = EVM.code vm
              /\ EVM.pc vm <= EVM.pc v
              /\ (EVM.pc vm <= List.length (EVM.code vm) ->
                  EVM.pc v <= List.length (EVM.code vm) + 32)
              /\ List.length (EVM.stack v) + (List.length (EVM.code vm) - EVM.pc v)
                 <= List.length (EVM.stack vm)
                    + (List.length (EVM.code vm) - EVM.pc vm)).
  assert (HP : P vm').
  { assert (HP0 : P vm) by (unfold P; repeat split; try reflexivity; lia).
    refine (run_loop_invariant P _ _ vm vm' HP0 Hrun).
    intros v v' (Hc & Hp & Hq & Hd) Hlt Hs.
    destruct (step_frame v v' Hs) as [Hc' Hp'].
    pose proof (operand_size_le_32 (fst (EVM.nextInstruction v))) as H32.
    destruct (step_stack_length v v' Hs) as [Hup _].
    unfold P. rewrite Hc', Hc in *.
    repeat split; try reflexivity; lia. }
  destruct HP as (Hc & Hp & Hq & Hd).
  repeat split; auto; try lia.
  destruct (run_loop_enough _ vm (Nat.le_refl _)) as [(v & Hr & _ & Hend) | [e He]];
    fold (EVM.run vm) in *.
  - rewrite Hrun in Hr. injection Hr as <-. exact Hend.
  - rewrite Hrun in He. discriminate.
Qed.

Lemma run_keeps_code_and_bounds_witness :
  EVM.pc (EVM.mk [x50; x7f; x01] 34 [of_Z 1; of_Z 1])
  <= List.length [x50; x7f; x01] + 32.
Proof.
  apply (run_keeps_code_and_bounds (EVM.mk [x50; x7f; x01] 0 [of_Z 1; of_Z 2])
           (EVM.mk [x50; x7f; x01] 34 [of_Z 1; of_Z 1])).
  - vm_compute. reflexivity.
  - simpl. lia.
Defined.

(** ** Running the concatenation of two programs *)

(** The instance [vm] with the bytes [pre] put in front of its code: the
    program counter moves along. *)
Definition relocate (pre : list byte) (vm : EVM.t) : EVM.t :=
  EVM.mk (pre ++ EVM.code vm) (List.length pre + EVM.pc vm) (EVM.stack vm).

Definition relocate_completion (pre : list byte) (r : EVM.completion) :
  EVM.completion :=
  match r with
  | EVM.Normal vm => EVM.Normal (relocate pre vm)
  | EVM.Throw e => EVM.Throw e
  end.

Definition relocate_outcome (pre : list byte) (o : EVM.outcome) : EVM.outcome :=
  match o with
  | EVM.Returned vm => EVM.Returned (relocate pre vm)
  | EVM.Uncaught e => EVM.Uncaught e
  | EVM.OutOfFuel => EVM.OutOfFuel
  end.

(** The instance [vm] with the bytes [post] put behind its code. *)
Definition extend (post : list byte) (vm : EVM.t) : EVM.t :=
  EVM.mk (EVM.code vm ++ post) (EVM.pc vm) (EVM.stack vm).

Definition extend_completion (post : list byte) (r : EVM.completion) :
  EVM.completion :=
  match r with
  | EVM.Normal vm => EVM.Normal (extend post vm)
  | EVM.Throw e => EVM.Throw e
  end.

Section Relocation.

Variable pre : list byte.

Lemma slice_relocate (c : list byte) (start stop : nat) :
  EVM.slice (pre ++ c) (List.length pre + start) (List.length pre + stop)
  = EVM.slice c start stop.
Proof.
  unfold EVM.slice.
  replace (List.length pre + stop - (List.length pre + start)) with (stop - start)
    by lia.
  rewrite skipn_app, skipn_all2 by lia.
  replace (List.length pre + start - List.length pre) with start by lia.
  reflexivity.
Qed.

Lemma pop_relocate (vm : EVM.t) :
  EVM.pop (relocate pre vm) = relocate_completion pre (EVM.pop vm).
Proof.
  unfold EVM.pop, relocate; simpl.
  now destruct (List.length (EVM.stack vm) =? 0).
Qed.

Lemma binary_relocate (f : number -> number -> number) (vm : EVM.t) :
  EVM.binary f (relocate pre vm) = relocate_completion pre (EVM.binary f vm).
Proof.
  unfold EVM.binary, relocate; simpl.
  destruct (List.length (EVM.stack vm) <? 2); [reflexivity|].
  destruct (EVM.array_pop (EVM.stack vm)) as [item1 s1].
  now destruct (EVM.array_pop s1) as [item2 s2].
Qed.

Lemma dispatch_relocate (op : option N) (vm : EVM.t) :
  EVM.dispatch op (relocate pre vm) = relocate_completion pre (EVM.dispatch op vm).
Proof.
  destruct op as [op|]; [|reflexivity]. unfold EVM.dispatch.
  destruct ((EVM.PUSH1 <=? op) && (op <=? EVM.PUSH32))%N.
  { unfold EVM.push, relocate; simpl.
    rewrite <- (Nat.add_assoc (List.length pre)), slice_relocate.
    reflexivity. }
  repeat match goal with
         | |- (if ?c then _ else _) = _ => destruct c
         end;
    first [ apply binary_relocate | apply pop_relocate | reflexivity ].
Qed.

Lemma step_relocate (vm : EVM.t) :
  EVM.step (relocate pre vm) = relocate_completion pre (EVM.step vm).
Proof.
  unfold EVM.step, EVM.nextInstruction.
  replace (nth_error (EVM.code (relocate pre vm)) (EVM.pc (relocate pre vm)))
    with (nth_error (EVM.code vm) (EVM.pc vm)).
  2:{ unfold relocate; simpl. rewrite nth_error_app2 by lia.
      f_equal. lia. }
  replace (EVM.with_pc (relocate pre vm) (EVM.pc (relocate pre vm) + 1))
    with (relocate pre (EVM.with_pc vm (EVM.pc vm + 1)))
    by (unfold relocate, EVM.with_pc; simpl; f_equal; lia).
  apply dispatch_relocate.
Qed.

Lemma run_loop_relocate (fuel : nat) :
  forall vm,
    EVM.run_loop fuel (relocate pre vm) = relocate_outcome pre (EVM.run_loop fuel vm).
Proof.
  induction fuel as [|fuel IH]; intros vm; simpl;
    rewrite length_app;
    replace (List.length pre + EVM.pc vm <? List.length pre + List.length (EVM.code vm))
      with (EVM.pc vm <? List.length (EVM.code vm))
      by (destruct (Nat.ltb_spec (EVM.pc vm) (List.length (EVM.code vm)));
          symmetry; [apply Nat.ltb_lt | apply Nat.ltb_ge]; lia);
    destruct (EVM.pc vm <? List.length (EVM.code vm)); try reflexivity.
  change (EVM.mk (pre ++ EVM.code vm) (List.length pre + EVM.pc vm) (EVM.stack vm))
    with (relocate pre vm).
  rewrite step_relocate.
  destruct (EVM.step vm) as [v1|e]; simpl; [apply IH | reflexivity].
Qed.

Lemma run_relocate (vm : EVM.t) :
  EVM.run (relocate pre vm) = relocate_outcome pre (EVM.run vm).
Proof.
  unfold EVM.run. rewrite <- run_loop_relocate. f_equal.
  unfold relocate; simpl. rewrite length_app. lia.
Qed.

End Relocation.

Section Extension.

Variable post : list byte.

Lemma slice_extend (c : list byte) (start stop : nat) :
  stop <= List.length c ->
  EVM.slice (c ++ post) start stop = EVM.slice c start stop.
Proof.
  intros H. unfold EVM.slice.
  rewrite skipn_app, firstn_app, length_skipn.
  replace (stop - start - (List.length c - start)) with 0 by lia.
  rewrite firstn_0. apply app_nil_r.
Qed.

Lemma pop_extend (vm : EVM.t) :
  EVM.pop (extend post vm) = extend_completion post (EVM.pop vm).
Proof.
  unfold EVM.pop, extend; simpl.
  now destruct (List.length (EVM.stack vm) =? 0).
Qed.

Lemma binary_extend (f : number -> number -> number) (vm : EVM.t) :
  EVM.binary f (extend post vm) = extend_completion post (EVM.binary f vm).
Proof.
  unfold EVM.binary, extend; simpl.
  destruct (List.length (EVM.stack vm) <? 2); [reflexivity|].
  destruct (EVM.array_pop (EVM.stack vm)) as [item1 s1].
  now destruct (EVM.array_pop s1) as [item2 s2].
Qed.

Lemma dispatch_extend (op : option N) (vm : EVM.t) :
  EVM.pc vm + operand_size op <= List.length (EVM.code vm) ->
  EVM.dispatch op (extend post vm) = extend_completion post (EVM.dispatch op vm).
Proof.
  destruct op as [op|]; [|reflexivity]. unfold EVM.dispatch, operand_size.
  destruct ((EVM.PUSH1 <=? op) && (op <=? EVM.PUSH32))%N.
  { intros Hfit. unfold EVM.push, extend; simpl.
    now rewrite slice_extend by exact Hfit. }
  intros _.
  repeat match goal with
         | |- (if ?c then _ else _) = _ => destruct c
         end;
    first [ apply binary_extend | apply pop_extend | reflexivity ].
Qed.

(** An instruction that lies entirely inside the code does the same when
    more bytes follow the code. *)
Lemma step_extend (vm : EVM.t) :
  EVM.pc vm + 1 + operand_size (fst (EVM.nextInstruction vm))
  <= List.length (EVM.code vm) ->
  EVM.step (extend post vm) = extend_completion post (EVM.step vm).
Proof.
  unfold EVM.step, EVM.nextInstruction. cbn [fst]. intros Hfit.
  replace (nth_error (EVM.code (extend post vm)) (EVM.pc (extend post vm)))
    with (nth_error (EVM.code vm) (EVM.pc vm))
    by (unfold extend; simpl; rewrite nth_error_app1 by lia; reflexivity).
  change (EVM.with_pc (extend post vm) (EVM.pc (extend post vm) + 1))
    with (extend post (EVM.with_pc vm (EVM.pc vm + 1))).
  apply dispatch_extend. simpl. lia.
Qed.

End Extension.

(** Unfolding [run] by one iteration. *)
Lemma run_step (vm vm1 : EVM.t) :
  EVM.pc vm < List.length (EVM.code vm) ->
  EVM.step vm = EVM.Normal vm1 ->
  EVM.run vm = EVM.run vm1.
Proof.
  intros Hlt Hs. destruct (step_frame vm vm1 Hs) as [Hc Hp].
  unfold EVM.run at 1.
  destruct (List.length (EVM.code vm) - EVM.pc vm) as [|k] eqn:E; [lia|].
  simpl. apply Nat.ltb_lt in Hlt. rewrite Hlt, Hs.
  apply Nat.ltb_lt in Hlt. unfold EVM.run.
  apply run_loop_more_fuel; rewrite ?Hc, ?Hp; lia.
Qed.

Lemma run_loop_pc_le (fuel : nat) (vm vm' : EVM.t) :
  EVM.run_loop fuel vm = EVM.Returned vm' -> EVM.pc vm <= EVM.pc vm'.
Proof.
  intros H.
  refine (run_loop_invariant (fun v => EVM.pc vm <= EVM.pc v) _ fuel vm vm'
            (Nat.le_refl _) H).
  intros v v' Hv _ Hs. destruct (step_frame v v' Hs) as [_ Hp]. lia.
Qed.

Lemma run_loop_extend (post : list byte) (fuel : nat) :
  forall vm vm',
    EVM.run_loop fuel vm = EVM.Returned vm' ->
    EVM.pc vm' = List.length (EVM.code vm) ->
    EVM.run (extend post vm) = EVM.run (extend post vm').
Proof.
  induction fuel as [|fuel IH]; intros vm vm'; simpl.
  - destruct (EVM.pc vm <? List.length (EVM.code vm)); [discriminate|].
    intros H; injection H as <-. reflexivity.
  - destruct (EVM.pc vm <? List.length (EVM.code vm)) eqn:E.
    2:{ intros H; injection H as <-. reflexivity. }
    apply Nat.ltb_lt in E.
    destruct (EVM.step vm) as [v1|e] eqn:Hs; [|discriminate].
    intros Hrun Hend.
    destruct (step_frame vm v1 Hs) as [Hc Hp].
    pose proof (run_loop_pc_le fuel v1 vm' Hrun) as Hle.
    assert (Hfit : EVM.pc vm + 1 + operand_size (fst (EVM.nextInstruction vm))
                   <= List.length (EVM.code vm)) by lia.
    pose proof (step_extend post vm Hfit) as Hext. rewrite Hs in Hext.
    rewrite (run_step (extend post vm) (extend post v1)).
    + apply IH; [exact Hrun | now rewrite Hc].
    + unfold extend; simpl. rewrite length_app. lia.
    + exact Hext.
Qed.

(** Running a program that ends exactly at its end, with more code behind
    it, leads to the state at the junction. *)
Lemma run_prefix (c1 c2 : list byte) (s s1 : list number) :
  EVM.run (EVM.mk c1 0 s) = EVM.Returned (EVM.mk c1 (List.length c1) s1) ->
  EVM.run (EVM.mk (c1 ++ c2) 0 s)
  = EVM.run (EVM.mk (c1 ++ c2) (List.length c1) s1).
Proof.
  intros Hrun. exact (run_loop_extend c2 _ _ _ Hrun eq_refl).
Qed.

(** Running from the junction of [c1 ++ c2] is running [c2] from its start. *)
Lemma run_suffix (c1 c2 : list byte) (s1 : list number) :
  EVM.run (EVM.mk (c1 ++ c2) (List.length c1) s1)
  = relocate_outcome c1 (EVM.run (EVM.mk c2 0 s1)).
Proof.
  rewrite <- run_relocate. unfold relocate; simpl. now rewrite Nat.add_0_r.
Qed.

(** X6: programs compose.  If running [c1] from the stack [s] returns with
    the program counter exactly at the end of [c1] and the stack [s1], then
    running [c1 ++ c2] from [s] ends as running [c2] from [s1] does: with the
    same exception, or returning the same stack, the program counter being
    counted from the start of [c1 ++ c2]. *)
Theorem run_app (c1 c2 : list byte) (s s1 : list number) :
  EVM.run (EVM.mk c1 0 s) = EVM.Returned (EVM.mk c1 (List.length c1) s1) ->
  EVM.run (EVM.mk (c1 ++ c2) 0 s)
  = relocate_outcome c1 (EVM.run (EVM.mk c2 0 s1)).
Proof.
  intros Hrun. rewrite (run_prefix c1 c2 s s1 Hrun). apply run_suffix.
Qed.

Lemma run_app_witness :
  EVM.run (EVM.mk ([x60; x02; x60; x03] ++ [x01; x50; x50]) 0 [])
  = relocate_outcome [x60; x02; x60; x03] (EVM.run (EVM.mk [x01; x50; x50] 0 [of_Z 2; of_Z 3])).
Proof.
  apply (run_app [x60; x02; x60; x03] [x01; x50; x50] [] [of_Z 2; of_Z 3]).
  vm_compute. reflexivity.
Defined.

(** ** The earlier version of the class *)

(** The earlier version of the interpreter knows PUSH1..PUSH32, PUSH0, POP
    and ADD only.  Its methods [nextInstruction], [push], [pop] and [add] have
    the bodies of the later version, which are used here; only the loop of
    [run] differs. *)
Module EVM1.

Import EVM.

Definition dispatch (op : option N) (vm : t) : completion :=
  match op with
  | None => Normal vm
  | Some op =>
      if ((PUSH1 <=? op) && (op <=? PUSH32))%N then
        let size := N.to_nat (op - PUSH1 + 1) in
        push size vm
      else if (op =? PUSH0)%N then
        Normal (with_stack vm (array_push (stack vm) (of_Z 0)))
      else if (op =? POP)%N then pop vm
      else if (op =? ADD)%N then add vm
      else Normal vm
  end.

Definition step (vm : t) : completion :=
  let '(op, vm) := nextInstruction vm in
  dispatch op vm.

Fixpoint run_loop (fuel : nat) (vm : t) : outcome :=
  if (pc vm <? List.length (code vm))%nat then
    match fuel with
    | O => OutOfFuel
    | S fuel' =>
        match step vm with
        | Normal vm' => run_loop fuel' vm'
        | Throw e => Uncaught e
        end
    end
  else Returned vm.

Definition run (vm : t) : outcome :=
  run_loop (List.length (code vm) - pc vm) vm.

End EVM1.

(** The opcodes that only the later version executes. *)
Definition added_opcode (op : N) : bool :=
  ((op =? EVM.MUL) || (op =? EVM.SUB) || (op =? EVM.DIV) || (op =? EVM.MOD)
   || (op =? EVM.LT) || (op =? EVM.GT) || (op =? EVM.EQ))%N.

Lemma dispatch_v1_agrees (op : N) (vm : EVM.t) :
  added_opcode op = false ->
  EVM1.dispatch (Some op) vm = EVM.dispatch (Some op) vm.
Proof.
  unfold added_opcode. intros H.
  repeat (apply orb_false_elim in H; destruct H as [H ?]).
  unfold EVM1.dispatch, EVM.dispatch.
  repeat match goal with E : _ = false |- _ => rewrite E; clear E end.
  reflexivity.
Qed.

Lemma dispatch_v1_skips (op : N) (vm : EVM.t) :
  added_opcode op = true ->
  EVM1.dispatch (Some op) vm = EVM.Normal vm.
Proof.
  unfold added_opcode. intros H.
  repeat (apply orb_prop in H; destruct H as [H|H]);
    apply N.eqb_eq in H; subst op; reflexivity.
Qed.

Lemma step_v1_agrees (vm : EVM.t) :
  Forall (fun b => added_opcode (Byte.to_N b) = false) (EVM.code vm) ->
  EVM1.step vm = EVM.step vm.
Proof.
  intros Hall. unfold EVM1.step, EVM.step, EVM.nextInstruction.
  destruct (nth_error (EVM.code vm) (EVM.pc vm)) as [b|] eqn:E; [|reflexivity].
  cbn [option_map]. apply dispatch_v1_agrees.
  apply nth_error_In in E. rewrite Forall_forall in Hall. now apply Hall.
Qed.

(** X7: the earlier version of the interpreter passes over the seven opcodes
    that were added later (MUL, SUB, DIV, MOD, LT, GT, EQ) without touching
    the stack, and on a program in which none of these seven byte values
    occurs, the two versions of [run] end in the same way. *)
Theorem v1_run_agrees (vm : EVM.t) :
  (forall b, nth_error (EVM.code vm) (EVM.pc vm) = Some b ->
             added_opcode (Byte.to_N b) = true ->
             EVM1.step vm = EVM.Normal (EVM.with_pc vm (EVM.pc vm + 1)))
  /\ (Forall (fun b => added_opcode (Byte.to_N b) = false) (EVM.code vm) ->
      EVM1.run vm = EVM.run vm).
Proof.
  split.
  - intros b Hb Hop. unfold EVM1.step, EVM.nextInstruction. rewrite Hb.
    cbn [option_map]. now apply dispatch_v1_skips.
  - unfold EVM1.run, EVM.run.
    generalize (List.length (EVM.code vm) - EVM.pc vm) as fuel.
    intros fuel. revert vm.
    induction fuel as [|fuel IH]; intros vm Hall; simpl; [reflexivity|].
    destruct (EVM.pc vm <? List.length (EVM.code vm)); [|reflexivity].
    rewrite (step_v1_agrees vm Hall).
    destruct (EVM.step vm) as [v1|e] eqn:Hs; [|reflexivity].
    apply IH. destruct (step_frame vm v1 Hs) as [Hc _]. now rewrite Hc.
Qed.

Lemma v1_run_agrees_witness :
  EVM1.step (EVM.mk [x02] 0 [of_Z 2; of_Z 3])
  = EVM.Normal (EVM.mk [x02] 1 [of_Z 2; of_Z 3])
  /\ EVM1.run (EVM.new [x60; x05; x60; x07; x01])
     = EVM.run (EVM.new [x60; x05; x60; x07; x01]).
Proof.
  split.
  - apply (proj1 (v1_run_agrees (EVM.mk [x02] 0 [of_Z 2; of_Z 3])) x02 eq_refl eq_refl).
  - apply (proj2 (v1_run_agrees (EVM.new [x60; x05; x60; x07; x01]))).
    repeat constructor.
Defined.

(** ** The tests of the two versions *)

(** What the final [console.log(this.stack)] of [run] prints, if [run]
    returns. *)
Definition logged (o : EVM.outcome) : option (list number) :=
  match o with
  | EVM.Returned vm => Some (EVM.stack vm)
  | _ => None
  end.

Definition testPush : EVM.outcome := EVM.run (EVM.new [x60; x01; x60; x01]).
Definition testPop : EVM.outcome := EVM.run (EVM.new [x60; x01; x50]).
Definition testAdd : EVM.outcome := EVM.run (EVM.new [x60; x02; x60; x03; x01]).
Definition testMul : EVM.outcome := EVM.run (EVM.new [x60; x02; x60; x03; x02]).
Definition testSub : EVM.outcome := EVM.run (EVM.new [x60; x02; x60; x03; x03]).
Definition testDiv : EVM.outcome := EVM.run (EVM.new [x60; x02; x60; x06; x04]).
Definition testMod : EVM.outcome := EVM.run (EVM.new [x60; x02; x60; x06; x06]).
Definition testLt : EVM.outcome := EVM.run (EVM.new [x60; x02; x60; x06; x10]).
Definition testGt : EVM.outcome := EVM.run (EVM.new [x60; x02; x60; x06; x11]).
Definition testEq : EVM.outcome := EVM.run (EVM.new [x60; x02; x60; x06; x14]).

(** The three tests of the earlier version. *)
Definition testPush_v1 : EVM.outcome := EVM1.run (EVM.new [x60; x01; x60; x01]).
Definition testPop_v1 : EVM.outcome := EVM1.run (EVM.new [x60; x01; x50]).
Definition testAdd_v1 : EVM.outcome := EVM1.run (EVM.new [x60; x02; x60; x03; x01]).

(** X8: each test of the two versions prints the stack that the comment
    beside its call of [run] announces: [1, 1] for the push test, the empty
    stack for the pop test, then [5], [6], [1], [3], [0], [0], [1] and [0] for
    the tests of ADD, MUL, SUB, DIV, MOD, LT, GT and EQ. *)
Theorem tests_print_announced_stacks :
  map logged [testPush; testPop; testAdd; testMul; testSub; testDiv; testMod;
              testLt; testGt; testEq]
  = map (fun l => Some (map of_Z l))
      [[1; 1]; []; [5]; [6]; [1]; [3]; [0]; [0]; [1]; [0]]%Z
  /\ map logged [testPush_v1; testPop_v1; testAdd_v1]
     = map (fun l => Some (map of_Z l)) [[1; 1]; []; [5]]%Z.
Proof.
  split; vm_compute; reflexivity.
Qed.

(** ** Multiplication and the comparisons on arbitrary Numbers *)

Lemma SFmul_comm (x y : number) : JS.mul x y = JS.mul y x.
Proof.
  unfold JS.mul.
  destruct x as [sx|sx| |sx mx ex], y as [sy|sy| |sy my ey];
    try reflexivity;
    try (simpl; now rewrite xorb_comm).
  unfold SFmul. rewrite (xorb_comm sy sx), (Z.add_comm ey ex).
  do 2 f_equal. apply Pos.mul_comm.
Qed.

(** X9: [mul] does not depend on the order of the two popped items, whatever
    Numbers they are. *)
Theorem mulResult_comm (a b : number) : EVM.mulResult a b = EVM.mulResult b a.
Proof. unfold EVM.mulResult. now rewrite SFmul_comm. Qed.

Lemma compare_cont_Eq_antisym (m q : positive) :
  Pos.compare_cont Eq q m = CompOpp (Pos.compare_cont Eq m q).
Proof. exact (eq_sym (Pos.compare_cont_antisym m q Eq)). Qed.

Lemma SFcompare_antisym (x y : number) :
  SFcompare y x = option_map CompOpp (SFcompare x y).
Proof.
  destruct x as [sx|sx| |sx mx ex], y as [sy|sy| |sy my ey];
    try reflexivity;
    try (destruct sx; reflexivity);
    try (destruct sy; reflexivity);
    try (destruct sx, sy; reflexivity).
  unfold SFcompare, option_map.
  destruct sx, sy; try reflexivity;
    rewrite (Z.compare_antisym ex ey);
    destruct (ex ?= ey)%Z; try reflexivity; cbn [CompOpp];
    rewrite (compare_cont_Eq_antisym mx my); reflexivity.
Qed.

(** X10: the three comparisons are consistent with each other.  If one of
    the two popped items is NaN, LT, GT and EQ all push 0; otherwise exactly
    one of them pushes 1 and the two others push 0.  GT is LT with the items
    exchanged, and EQ does not depend on their order. *)
Theorem comparisons_consistent (a b : number) :
  EVM.gtResult a b = EVM.ltResult b a
  /\ EVM.eqResult a b = EVM.eqResult b a
  /\ (a = NaN \/ b = NaN ->
      EVM.ltResult a b = of_Z 0 /\ EVM.gtResult a b = of_Z 0
      /\ EVM.eqResult a b = of_Z 0)
  /\ (a <> NaN -> b <> NaN ->
      (EVM.ltResult a b, EVM.gtResult a b, EVM.eqResult a b)
      = (of_Z 1, of_Z 0, of_Z 0)
      \/ (EVM.ltResult a b, EVM.gtResult a b, EVM.eqResult a b)
         = (of_Z 0, of_Z 1, of_Z 0)
      \/ (EVM.ltResult a b, EVM.gtResult a b, EVM.eqResult a b)
         = (of_Z 0, of_Z 0, of_Z 1)).
Proof.
  unfold EVM.gtResult, EVM.ltResult, EVM.eqResult, JS.gt, JS.lt, strict_eq,
    SFltb, SFeqb.
  rewrite (SFcompare_antisym a b).
  split; [reflexivity|]. split.
  { destruct (SFcompare a b) as [[| |]|]; reflexivity. }
  split.
  - intros [-> | ->]; [repeat split; reflexivity|].
    destruct a; repeat split; reflexivity.
  - intros Ha Hb.
    assert (Hc : exists c, SFcompare a b = Some c).
    { unfold NaN in Ha, Hb.
      destruct a as [sx|sx| |sx mx ex], b as [sy|sy| |sy my ey];
        try congruence; cbn [SFcompare]; eexists; reflexivity. }
    destruct Hc as [c ->]. destruct c; cbn; auto.
Qed.

Lemma comparisons_consistent_witness :
  EVM.ltResult NaN (of_Z 1) = of_Z 0
  /\ ((EVM.ltResult (of_Z 2) (of_Z 3), EVM.gtResult (of_Z 2) (of_Z 3),
       EVM.eqResult (of_Z 2) (of_Z 3)) = (of_Z 1, of_Z 0, of_Z 0)
      \/ (EVM.ltResult (of_Z 2) (of_Z 3), EVM.gtResult (of_Z 2) (of_Z 3),
          EVM.eqResult (of_Z 2) (of_Z 3)) = (of_Z 0, of_Z 1, of_Z 0)
      \/ (EVM.ltResult (of_Z 2) (of_Z 3), EVM.gtResult (of_Z 2) (of_Z 3),
          EVM.eqResult (of_Z 2) (of_Z 3)) = (of_Z 0, of_Z 0, of_Z 1)).
Proof.
  split.
  - apply (proj1 (proj2 (proj2 (comparisons_consistent NaN (of_Z 1))))).
    left; reflexivity.
  - apply (proj2 (proj2 (proj2 (comparisons_consistent (of_Z 2) (of_Z 3)))));
      vm_compute; discriminate.
Defined.

(** ** Exact arithmetic on the integers below [2^53] *)

(** The number of binary digits of a positive integer. *)
Definition digits (v : positive) : Z := Zpos (digits2_pos v).

(** The binary64 number of sign [s] and absolute value [v], for [v] of at
    most 53 digits: a mantissa of exactly 53 digits and the matching
    exponent. *)
Definition canonical (s : bool) (v : positive) : number :=
  S754_finite s (Z.to_pos (Zpos v * 2 ^ (53 - digits v))) (digits v - 53).

Section Rounding.

Local Open Scope Z_scope.

Lemma digits_pos (v : positive) : 0 < digits v.
Proof. unfold digits. lia. Qed.

Lemma digits_upper (v : positive) : Zpos v < 2 ^ digits v.
Proof. apply digits2_upper. Qed.

Lemma digits_lower (v : positive) : 2 ^ (digits v - 1) <= Zpos v.
Proof.
  pose proof (digits2_lower v) as H. fold (digits v) in H.
  pose proof (digits_pos v) as Hd.
  replace (digits v) with (Z.succ (digits v - 1)) in H by lia.
  rewrite Z.pow_succ_r in H by lia. lia.
Qed.

Lemma digits_unique (v : positive) (d : Z) :
  2 ^ (d - 1) <= Zpos v < 2 ^ d -> digits v = d.
Proof.
  intros [Hlo Hhi].
  pose proof (digits_upper v) as Hu. pose proof (digits_lower v) as Hl.
  pose proof (digits_pos v) as Hd.
  assert (Hd0 : 0 < d).
  { destruct (Z.lt_ge_cases 0 d) as [H|H]; [exact H|].
    exfalso. destruct (Z.eq_dec d 0) as [->|Hn].
    - change (2 ^ 0) with 1 in Hhi. lia.
    - rewrite Z.pow_neg_r in Hhi by lia. lia. }
  destruct (Z.lt_trichotomy (digits v) d) as [H|[H|H]]; [|exact H|]; exfalso.
  - assert (2 ^ digits v <= 2 ^ (d - 1)) by (apply Z.pow_le_mono_r; lia). lia.
  - assert (2 ^ d <= 2 ^ (digits v - 1)) by (apply Z.pow_le_mono_r; lia). lia.
Qed.

Lemma digits_shift (M w : positive) (j : Z) :
  0 <= j -> Zpos M = Zpos w * 2 ^ j -> digits M = digits w + j.
Proof.
  intros Hj HM. apply digits_unique. rewrite HM.
  pose proof (digits_upper w) as Hu. pose proof (digits_lower w) as Hl.
  pose proof (digits_pos w) as Hd.
  assert (Hp : 0 < 2 ^ j) by (apply Z.pow_pos_nonneg; lia).
  replace (digits w + j - 1) with ((digits w - 1) + j) by lia.
  rewrite !Z.pow_add_r by lia. split; nia.
Qed.

Lemma iter_pos_nat {A : Type} (f : A -> A) (p : positive) :
  forall x, iter_pos f p x = Nat.iter (Pos.to_nat p) f x.
Proof.
  induction p as [p IH|p IH|]; intros x; cbn [iter_pos].
  - rewrite !IH, Pos2Nat.inj_xI.
    replace (S (2 * Pos.to_nat p))%nat with (Pos.to_nat p + (Pos.to_nat p + 1))%nat
      by lia.
    rewrite !Nat.iter_add. reflexivity.
  - rewrite !IH, Pos2Nat.inj_xO.
    replace (2 * Pos.to_nat p)%nat with (Pos.to_nat p + Pos.to_nat p)%nat by lia.
    now rewrite Nat.iter_add.
  - reflexivity.
Qed.

Definition exact_record (m : Z) : shr_record :=
  {| shr_m := m; shr_r := false; shr_s := false |}.

(** Shifting out [n] zero bits loses nothing. *)
Lemma iter_shr_exact (n : nat) :
  forall m w : positive,
    Zpos m = Zpos w * 2 ^ Z.of_nat n ->
    Nat.iter n shr_1 (exact_record (Zpos m)) = exact_record (Zpos w).
Proof.
  induction n as [|n IH]; intros m w H.
  - change (2 ^ Z.of_nat 0) with 1 in H. rewrite Z.mul_1_r in H.
    injection H as ->. reflexivity.
  - rewrite Nat.iter_succ_r.
    rewrite Nat2Z.inj_succ, Z.pow_succ_r in H by lia.
    assert (Hp : 0 < 2 ^ Z.of_nat n) by (apply Z.pow_pos_nonneg; lia).
    destruct m as [m'|m'|].
    + exfalso. rewrite Pos2Z.inj_xI in H. lia.
    + cbn [shr_1 exact_record orb]. apply (IH m' w).
      rewrite Pos2Z.inj_xO in H. lia.
    + exfalso. nia.
Qed.

Lemma shr_exact (m w : positive) (e n : Z) :
  0 <= n -> Zpos m = Zpos w * 2 ^ n ->
  shr (exact_record (Zpos m)) e n = (exact_record (Zpos w), e + n).
Proof.
  intros Hn H. destruct n as [|p|p]; [| |lia].
  - change (2 ^ 0) with 1 in H. rewrite Z.mul_1_r in H. injection H as ->.
    cbn [shr]. now rewrite Z.add_0_r.
  - cbn [shr]. rewrite iter_pos_nat. f_equal.
    apply iter_shr_exact. now rewrite positive_nat_Z.
Qed.

End Rounding.

Section ExactRounding.

Local Open Scope Z_scope.

Lemma fexp_eq (x : Z) : fexp prec emax x = Z.max (x - 53) (-1074).
Proof. reflexivity. Qed.

(** The mantissa of [canonical s w], as an integer. *)
Lemma canonical_mantissa_eq (w : positive) :
  digits w <= 53 ->
  Zpos (Z.to_pos (Zpos w * 2 ^ (53 - digits w))) = Zpos w * 2 ^ (53 - digits w).
Proof.
  intros H. assert (0 < 2 ^ (53 - digits w)) by (apply Z.pow_pos_nonneg; lia).
  rewrite Z2Pos.id; lia.
Qed.

(** Rounding a mantissa [w * 2^j], where [w] has at most 53 digits and the
    mantissa at least 53, is exact. *)
Lemma binary_round_aux_exact (s : bool) (w M : positive) (j e : Z) :
  0 <= j -> Zpos M = Zpos w * 2 ^ j ->
  digits w <= 53 -> 53 <= digits w + j ->
  -1074 <= e + (digits w + j - 53) <= 971 ->
  binary_round_aux prec emax s (Zpos M) e loc_Exact
  = S754_finite s (Z.to_pos (Zpos w * 2 ^ (53 - digits w)))
      (e + (digits w + j - 53)).
Proof.
  intros Hj HM Hd53 Hn Ht.
  pose proof (digits_shift M w j Hj HM) as HdM.
  pose proof (canonical_mantissa_eq w Hd53) as Hw'.
  set (w' := Z.to_pos (Zpos w * 2 ^ (53 - digits w))) in *.
  set (n := digits w + j - 53) in *.
  assert (HMw' : Zpos M = Zpos w' * 2 ^ n).
  { rewrite Hw', HM, <- Z.mul_assoc, <- Z.pow_add_r by (unfold n; lia).
    do 2 f_equal. unfold n. lia. }
  assert (Hdw' : digits w' = 53).
  { rewrite (digits_shift w' w (53 - digits w)); [lia | lia | exact Hw']. }
  unfold binary_round_aux, shr_fexp.
  cbn [Zdigits2 shr_record_of_loc]. fold (digits M). fold (exact_record (Zpos M)).
  rewrite fexp_eq, HdM.
  replace (Z.max (digits w + j + e - 53) (-1074) - e) with n by (unfold n; lia).
  rewrite (shr_exact M w' e n) by (unfold n; lia || exact HMw').
  cbn [exact_record shr_m loc_of_shr_record round_nearest_even].
  cbn [Zdigits2 shr_record_of_loc]. fold (digits w'). fold (exact_record (Zpos w')).
  rewrite fexp_eq, Hdw'.
  replace (Z.max (53 + (e + n) - 53) (-1074) - (e + n)) with 0 by lia.
  cbn [shr exact_record shr_m].
  replace (e + n <=? emax - prec) with true
    by (symmetry; apply Z.leb_le; unfold emax, prec; lia).
  reflexivity.
Qed.

Lemma iter_xO_mul (M : positive) (d : positive) :
  Zpos (Pos.iter xO M d) = Zpos M * 2 ^ Zpos d.
Proof.
  change (Pos.iter xO M d) with (shift_pos d M).
  rewrite shift_pos_correct, Zpower_pos_nat, Zpower_nat_Z, positive_nat_Z. lia.
Qed.

(** The same after the alignment done by [binary_round], for a mantissa
    with any number of digits. *)
Lemma binary_round_exact (s : bool) (w M : positive) (j e : Z) :
  0 <= j -> Zpos M = Zpos w * 2 ^ j ->
  digits w <= 53 ->
  -1074 <= e + (digits w + j - 53) <= 971 ->
  binary_round prec emax s M e
  = S754_finite s (Z.to_pos (Zpos w * 2 ^ (53 - digits w)))
      (e + (digits w + j - 53)).
Proof.
  intros Hj HM Hd53 Ht.
  pose proof (digits_shift M w j Hj HM) as HdM.
  unfold binary_round. fold (digits M). rewrite fexp_eq, HdM.
  replace (Z.max (digits w + j + e - 53) (-1074))
    with (e + (digits w + j - 53)) by lia.
  unfold shl_align.
  replace (e + (digits w + j - 53) - e) with (digits w + j - 53) by lia.
  destruct (digits w + j - 53) as [|p|p] eqn:En.
  - rewrite <- En. apply (binary_round_aux_exact s w M j e); auto; lia.
  - rewrite <- En. apply (binary_round_aux_exact s w M j e); auto; lia.
  - rewrite (binary_round_aux_exact s w (Pos.iter xO M p) (j + Zpos p));
      try lia.
    + f_equal. lia.
    + rewrite iter_xO_mul, HM, Z.pow_add_r by lia. lia.
Qed.

Lemma of_Z_pos (v : positive) :
  Zpos v < 2 ^ 53 -> of_Z (Zpos v) = canonical false v.
Proof.
  intros H.
  assert (Hd : digits v <= 53).
  { pose proof (digits_lower v) as Hl. pose proof (digits_pos v).
    destruct (Z.le_gt_cases (digits v) 53) as [E|E]; [exact E|].
    assert (2 ^ 53 <= 2 ^ (digits v - 1)) by (apply Z.pow_le_mono_r; lia). lia. }
  unfold of_Z, binary_normalize, canonical.
  pose proof (digits_pos v) as Hd0.
  assert (H0 : Zpos v = Zpos v * 2 ^ 0) by (change (2 ^ 0) with 1; lia).
  rewrite (binary_round_exact false v v 0 0 (Z.le_refl 0) H0 Hd) by lia.
  f_equal; lia.
Qed.

Lemma of_Z_neg (v : positive) :
  Zpos v < 2 ^ 53 -> of_Z (Zneg v) = canonical true v.
Proof.
  intros H.
  assert (Hd : digits v <= 53).
  { pose proof (digits_lower v) as Hl. pose proof (digits_pos v).
    destruct (Z.le_gt_cases (digits v) 53) as [E|E]; [exact E|].
    assert (2 ^ 53 <= 2 ^ (digits v - 1)) by (apply Z.pow_le_mono_r; lia). lia. }
  unfold of_Z, binary_normalize, canonical.
  pose proof (digits_pos v) as Hd0.
  assert (H0 : Zpos v = Zpos v * 2 ^ 0) by (change (2 ^ 0) with 1; lia).
  rewrite (binary_round_exact true v v 0 0 (Z.le_refl 0) H0 Hd) by lia.
  f_equal; lia.
Qed.

(** An integer of absolute value below [2^53], given with [k] extra zero
    bits and the exponent [-k], is normalised to its Number. *)
Lemma normalize_exact (z k : Z) :
  0 <= k -> Z.abs z < 2 ^ 53 ->
  binary_normalize prec emax (z * 2 ^ k) (- k) false = of_Z z.
Proof.
  intros Hk Hz.
  assert (Hp : 0 < 2 ^ k) by (apply Z.pow_pos_nonneg; lia).
  destruct z as [|v|v].
  - reflexivity.
  - rewrite (of_Z_pos v) by lia.
    destruct (Zpos v * 2 ^ k) as [|M|M] eqn:EM; try lia.
    assert (Hd : digits v <= 53).
    { pose proof (digits_lower v) as Hl. pose proof (digits_pos v).
      destruct (Z.le_gt_cases (digits v) 53) as [E|E]; [exact E|].
      assert (2 ^ 53 <= 2 ^ (digits v - 1)) by (apply Z.pow_le_mono_r; lia). lia. }
    unfold binary_normalize, canonical.
    pose proof (digits_pos v) as Hd0.
    assert (HM : Zpos M = Zpos v * 2 ^ k) by lia.
    rewrite (binary_round_exact false v M k (- k) Hk HM Hd) by lia.
    f_equal; lia.
  - rewrite (of_Z_neg v) by lia.
    destruct (Zneg v * 2 ^ k) as [|M|M] eqn:EM; try lia.
    assert (Hd : digits v <= 53).
    { pose proof (digits_lower v) as Hl. pose proof (digits_pos v).
      destruct (Z.le_gt_cases (digits v) 53) as [E|E]; [exact E|].
      assert (2 ^ 53 <= 2 ^ (digits v - 1)) by (apply Z.pow_le_mono_r; lia). lia. }
    unfold binary_normalize, canonical.
    pose proof (digits_pos v) as Hd0.
    assert (HM : Zpos M = Zpos v * 2 ^ k) by lia.
    rewrite (binary_round_exact true v M k (- k) Hk HM Hd) by lia.
    f_equal; lia.
Qed.

End ExactRounding.

(** The integers that binary64 represents exactly, whatever they are: those
    of absolute value below [2^53]. *)
Definition safe (z : Z) : Prop := (Z.abs z < 2 ^ 53)%Z.

(** The integer of sign [s] and absolute value [v]. *)
Definition signed (s : bool) (v : positive) : Z := cond_Zopp s (Zpos v).

Section SafeIntegers.

Local Open Scope Z_scope.

Lemma digits_le_53 (v : positive) : Zpos v < 2 ^ 53 -> digits v <= 53.
Proof.
  intros H. pose proof (digits_lower v) as Hl. pose proof (digits_pos v).
  destruct (Z.le_gt_cases (digits v) 53) as [E|E]; [exact E|].
  assert (2 ^ 53 <= 2 ^ (digits v - 1)) by (apply Z.pow_le_mono_r; lia). lia.
Qed.

Lemma of_Z_signed (s : bool) (v : positive) :
  Zpos v < 2 ^ 53 -> of_Z (signed s v) = canonical s v.
Proof.
  destruct s; [apply of_Z_neg | apply of_Z_pos].
Qed.

(** Every safe integer other than zero has a sign and an absolute value. *)
Lemma safe_cases (z : Z) :
  safe z ->
  z = 0 \/ exists s v, z = signed s v /\ Zpos v < 2 ^ 53.
Proof.
  unfold safe. destruct z as [|v|v]; intros H; [now left| |]; right.
  - exists false, v. split; [reflexivity | lia].
  - exists true, v. split; [reflexivity | lia].
Qed.

(** The mantissa of a canonical number, aligned to a smaller exponent. *)
Lemma aligned_mantissa (v : positive) (ez : Z) :
  digits v <= 53 -> ez <= digits v - 53 ->
  Zpos (fst (shl_align (Z.to_pos (Zpos v * 2 ^ (53 - digits v)))
               (digits v - 53) ez))
  = Zpos v * 2 ^ (- ez).
Proof.
  intros Hd He. pose proof (canonical_mantissa_eq v Hd) as Hm.
  unfold shl_align. destruct (ez - (digits v - 53)) as [|p|p] eqn:E; cbn [fst].
  - rewrite Hm. do 2 f_equal. lia.
  - lia.
  - rewrite iter_xO_mul, Hm, <- Z.mul_assoc, <- Z.pow_add_r by lia.
    do 2 f_equal. lia.
Qed.

Lemma cond_Zopp_mul (s : bool) (a b : Z) :
  cond_Zopp s a * b = cond_Zopp s (a * b).
Proof. destruct s; simpl; lia. Qed.

Lemma add_canonical (sx sy : bool) (vx vy : positive) :
  Zpos vx < 2 ^ 53 -> Zpos vy < 2 ^ 53 ->
  safe (signed sx vx + signed sy vy) ->
  JS.add (canonical sx vx) (canonical sy vy)
  = of_Z (signed sx vx + signed sy vy).
Proof.
  intros Hx Hy Hs.
  pose proof (digits_le_53 vx Hx) as Hdx. pose proof (digits_le_53 vy Hy) as Hdy.
  unfold JS.add, canonical, SFadd.
  set (ez := Z.min (digits vx - 53) (digits vy - 53)).
  rewrite !aligned_mantissa by (unfold ez; lia).
  fold (signed sx vx). fold (signed sy vy).
  unfold signed at 1 2. rewrite <- !cond_Zopp_mul.
  fold (signed sx vx). fold (signed sy vy).
  rewrite <- Z.mul_add_distr_r.
  replace ez with (- - ez) at 2 by lia.
  apply normalize_exact; [unfold ez; lia | exact Hs].
Qed.

Lemma sub_canonical (sx sy : bool) (vx vy : positive) :
  Zpos vx < 2 ^ 53 -> Zpos vy < 2 ^ 53 ->
  safe (signed sx vx - signed sy vy) ->
  JS.sub (canonical sx vx) (canonical sy vy)
  = of_Z (signed sx vx - signed sy vy).
Proof.
  intros Hx Hy Hs.
  pose proof (digits_le_53 vx Hx) as Hdx. pose proof (digits_le_53 vy Hy) as Hdy.
  unfold JS.sub, canonical, SFsub.
  set (ez := Z.min (digits vx - 53) (digits vy - 53)).
  rewrite !aligned_mantissa by (unfold ez; lia).
  fold (signed sx vx). fold (signed sy vy).
  unfold signed at 1 2. rewrite <- !cond_Zopp_mul.
  fold (signed sx vx). fold (signed sy vy).
  rewrite <- Z.mul_sub_distr_r.
  replace ez with (- - ez) at 2 by lia.
  apply normalize_exact; [unfold ez; lia | exact Hs].
Qed.

(** Addition and subtraction of Numbers are exact on safe integers whose
    sum or difference is safe. *)
Lemma JS_add_exact (x y : Z) :
  safe x -> safe y -> safe (x + y) -> JS.add (of_Z x) (of_Z y) = of_Z (x + y).
Proof.
  intros Hx Hy Hs.
  destruct (safe_cases x Hx) as [->|(sx & vx & -> & Hvx)];
    destruct (safe_cases y Hy) as [->|(sy & vy & -> & Hvy)].
  - reflexivity.
  - rewrite Z.add_0_l, of_Z_signed by exact Hvy. reflexivity.
  - rewrite Z.add_0_r, of_Z_signed by exact Hvx. reflexivity.
  - rewrite (of_Z_signed sx vx Hvx), (of_Z_signed sy vy Hvy).
    now apply add_canonical.
Qed.

Lemma signed_opp (s : bool) (v : positive) : - signed s v = signed (negb s) v.
Proof. destruct s; reflexivity. Qed.

Lemma JS_sub_exact (x y : Z) :
  safe x -> safe y -> safe (x - y) -> JS.sub (of_Z x) (of_Z y) = of_Z (x - y).
Proof.
  intros Hx Hy Hs.
  destruct (safe_cases x Hx) as [->|(sx & vx & -> & Hvx)];
    destruct (safe_cases y Hy) as [->|(sy & vy & -> & Hvy)].
  - reflexivity.
  - rewrite Z.sub_0_l, signed_opp, !of_Z_signed by exact Hvy. reflexivity.
  - rewrite Z.sub_0_r, of_Z_signed by exact Hvx. reflexivity.
  - rewrite (of_Z_signed sx vx Hvx), (of_Z_signed sy vy Hvy).
    now apply sub_canonical.
Qed.

(** A safe integer is below [2 ** 256] in absolute value: the remainder
    leaves it as it is. *)
Lemma rem_pow_2_256_safe (z : Z) :
  safe z -> rem (of_Z z) pow_2_256 = of_Z z.
Proof.
  intros Hz. destruct (safe_cases z Hz) as [->|(s & v & -> & Hv)]; [reflexivity|].
  rewrite (of_Z_signed s v Hv), pow_2_256_eq.
  pose proof (digits_le_53 v Hv) as Hd. pose proof (digits_pos v) as Hd0.
  pose proof (canonical_mantissa_eq v Hd) as Hm.
  unfold canonical, rem. cbv zeta.
  set (m := Z.to_pos (Zpos v * 2 ^ (53 - digits v))) in *.
  assert (Hm53 : Zpos m < 2 ^ 53).
  { rewrite Hm. pose proof (digits_upper v) as Hu.
    assert (0 < 2 ^ (53 - digits v)) by (apply Z.pow_pos_nonneg; lia).
    replace 53 with (digits v + (53 - digits v)) at 2 by lia.
    rewrite Z.pow_add_r by lia. nia. }
  rewrite Z.min_l by lia. rewrite Z.sub_diag, Z.pow_0_r, Z.mul_1_r.
  assert (Hy : 2 <= 2 ^ (204 - (digits v - 53))).
  { change 2 with (2 ^ 1) at 1. apply Z.pow_le_mono_r; lia. }
  rewrite Z.rem_small.
  2:{ split; [lia|].
      change (2 ^ 53) with 9007199254740992 in Hm53. nia. }
  cbn [Z.eqb].
  assert (HM : Zpos m = Zpos v * 2 ^ (53 - digits v)) by exact Hm.
  assert (Hj : 0 <= 53 - digits v) by lia.
  destruct s; cbn [cond_Zopp Z.opp binary_normalize];
    rewrite (binary_round_exact _ v m (53 - digits v) (digits v - 53) Hj HM Hd)
      by lia;
    f_equal; lia.
Qed.

End SafeIntegers.

(** X11: ADD is exact on safe integers: for integers [x] and [y] of absolute
    value below [2^53] whose sum is below [2^53] and not negative, [add]
    pushes exactly [x + y]. *)
Theorem add_exact (x y : Z) :
  safe x -> safe y -> (0 <= x + y < 2 ^ 53)%Z ->
  EVM.addResult (of_Z x) (of_Z y) = of_Z (x + y).
Proof.
  intros Hx Hy Hs. assert (safe (x + y)) by (unfold safe; lia).
  unfold EVM.addResult. rewrite JS_add_exact by assumption.
  now apply rem_pow_2_256_safe.
Qed.

Lemma add_exact_witness :
  EVM.addResult (of_Z 4503599627370495) (of_Z 4503599627370496)
  = of_Z (4503599627370495 + 4503599627370496).
Proof.
  apply (add_exact 4503599627370495 4503599627370496);
    unfold safe; vm_compute; try split; congruence.
Defined.

(** X12: SUB computes the signed difference of safe integers: for safe [x]
    (popped first) and [y] (popped second) with a safe difference, [sub]
    pushes exactly [x - y], which is a negative Number whenever [x < y]. *)
Theorem sub_exact (x y : Z) :
  safe x -> safe y -> safe (x - y) ->
  EVM.subResult (of_Z x) (of_Z y) = of_Z (x - y).
Proof.
  intros Hx Hy Hs.
  unfold EVM.subResult. rewrite JS_sub_exact by assumption.
  now apply rem_pow_2_256_safe.
Qed.

Lemma sub_exact_witness :
  EVM.subResult (of_Z 5) (of_Z 4503599627370496)
  = of_Z (5 - 4503599627370496).
Proof.
  apply (sub_exact 5 4503599627370496); unfold safe; vm_compute; reflexivity.
Defined.

Section SafeProducts.

Local Open Scope Z_scope.

Lemma signed_mul (sx sy : bool) (vx vy : positive) :
  signed sx vx * signed sy vy = signed (xorb sx sy) (vx * vy).
Proof. destruct sx, sy; reflexivity. Qed.

Lemma abs_signed (s : bool) (v : positive) : Z.abs (signed s v) = Zpos v.
Proof. destruct s; reflexivity. Qed.

Lemma mul_canonical (sx sy : bool) (vx vy : positive) :
  Zpos vx < 2 ^ 53 -> Zpos vy < 2 ^ 53 -> Zpos (vx * vy) < 2 ^ 53 ->
  JS.mul (canonical sx vx) (canonical sy vy) = canonical (xorb sx sy) (vx * vy).
Proof.
  intros Hx Hy Hxy.
  pose proof (digits_le_53 vx Hx) as Hdx. pose proof (digits_le_53 vy Hy) as Hdy.
  pose proof (digits_le_53 (vx * vy) Hxy) as Hdw.
  pose proof (digits_pos vx) as Hpx. pose proof (digits_pos vy) as Hpy.
  pose proof (canonical_mantissa_eq vx Hdx) as Hmx.
  pose proof (canonical_mantissa_eq vy Hdy) as Hmy.
  unfold JS.mul, canonical, SFmul.
  set (mx := Z.to_pos (Zpos vx * 2 ^ (53 - digits vx))) in *.
  set (my := Z.to_pos (Zpos vy * 2 ^ (53 - digits vy))) in *.
  set (j := 106 - digits vx - digits vy).
  assert (HM : Zpos (mx * my) = Zpos (vx * vy) * 2 ^ j).
  { rewrite !Pos2Z.inj_mul, Hmx, Hmy. unfold j.
    replace (106 - digits vx - digits vy)
      with ((53 - digits vx) + (53 - digits vy)) by lia.
    rewrite Z.pow_add_r by lia. ring. }
  assert (Hlow : digits vx + digits vy - 1 <= digits (vx * vy)).
  { pose proof (digits_lower vx) as Hlx. pose proof (digits_lower vy) as Hly.
    pose proof (digits_upper (vx * vy)) as Hu.
    destruct (Z.le_gt_cases (digits vx + digits vy - 1) (digits (vx * vy)))
      as [E|E]; [exact E|]. exfalso.
    assert (H1 : 2 ^ digits (vx * vy) <= 2 ^ (digits vx - 1 + (digits vy - 1)))
      by (apply Z.pow_le_mono_r; lia).
    rewrite Z.pow_add_r in H1 by lia. rewrite Pos2Z.inj_mul in Hu.
    assert (0 < 2 ^ (digits vx - 1)) by (apply Z.pow_pos_nonneg; lia).
    assert (0 < 2 ^ (digits vy - 1)) by (apply Z.pow_pos_nonneg; lia).
    nia. }
  rewrite (binary_round_aux_exact (xorb sx sy) (vx * vy) (mx * my) j
             (digits vx - 53 + (digits vy - 53)))
    by (unfold j; lia || exact HM).
  f_equal. unfold j. lia.
Qed.

(** Multiplication of Numbers is exact on non-negative safe integers whose
    product is safe.  (With a negative factor and a zero one the product is
    the negative zero.) *)
Lemma JS_mul_exact (x y : Z) :
  0 <= x < 2 ^ 53 -> 0 <= y < 2 ^ 53 -> x * y < 2 ^ 53 ->
  JS.mul (of_Z x) (of_Z y) = of_Z (x * y).
Proof.
  intros Hx Hy Hs.
  destruct x as [|vx|vx]; [|destruct y as [|vy|vy]|]; try lia.
  - destruct y as [|vy|vy]; [reflexivity| |lia].
    rewrite (of_Z_pos vy) by lia. reflexivity.
  - rewrite (of_Z_pos vx) by lia. reflexivity.
  - change (Zpos vx * Zpos vy) with (Zpos (vx * vy)) in *.
    rewrite (of_Z_pos vx), (of_Z_pos vy), (of_Z_pos _ Hs) by lia.
    apply (mul_canonical false false); lia.
Qed.

End SafeProducts.

(** X13: MUL is exact on safe integers: for integers [x] and [y] from 0 to
    [2^53 - 1] whose product is below [2^53], [mul] pushes exactly [x * y]. *)
Theorem mul_exact (x y : Z) :
  (0 <= x < 2 ^ 53)%Z -> (0 <= y < 2 ^ 53)%Z -> (x * y < 2 ^ 53)%Z ->
  EVM.mulResult (of_Z x) (of_Z y) = of_Z (x * y).
Proof.
  intros Hx Hy Hs.
  unfold EVM.mulResult. rewrite JS_mul_exact by assumption.
  apply rem_pow_2_256_safe. unfold safe. nia.
Qed.

Lemma mul_exact_witness :
  EVM.mulResult (of_Z 94906265) (of_Z 94906265) = of_Z (94906265 * 94906265).
Proof.
  apply (mul_exact 94906265 94906265); vm_compute; try split; congruence.
Defined.

Section SafeRemainder.

Local Open Scope Z_scope.

(** The mantissa of a canonical number, brought to a smaller exponent as
    [rem] does. *)
Lemma scaled_mantissa (v : positive) (e : Z) :
  digits v <= 53 -> e <= digits v - 53 ->
  Zpos (Z.to_pos (Zpos v * 2 ^ (53 - digits v))) * 2 ^ (digits v - 53 - e)
  = Zpos v * 2 ^ (- e).
Proof.
  intros Hd He. rewrite (canonical_mantissa_eq v Hd).
  rewrite <- Z.mul_assoc, <- Z.pow_add_r by lia. do 2 f_equal. lia.
Qed.

Lemma JS_rem_exact (x y : Z) :
  0 <= x < 2 ^ 53 -> 0 < y < 2 ^ 53 ->
  rem (of_Z x) (of_Z y) = of_Z (x mod y).
Proof.
  intros Hx Hy.
  destruct y as [|vy|vy]; try lia. rewrite (of_Z_pos vy) by lia.
  destruct x as [|vx|vx]; try lia.
  - rewrite Z.mod_0_l by lia. reflexivity.
  - rewrite (of_Z_pos vx) by lia.
    assert (Hdx : digits vx <= 53) by (apply digits_le_53; lia).
    assert (Hdy : digits vy <= 53) by (apply digits_le_53; lia).
    unfold canonical, rem. cbv zeta.
    set (e := Z.min (digits vx - 53) (digits vy - 53)).
    rewrite !scaled_mantissa by (unfold e; lia).
    assert (HK : 0 < 2 ^ (- e)) by (apply Z.pow_pos_nonneg; unfold e; lia).
    rewrite Z.mul_rem_distr_r by lia.
    rewrite Z.rem_mod_nonneg by lia.
    assert (Hm : 0 <= Zpos vx mod Zpos vy < Zpos vy)
      by (apply Z.mod_pos_bound; lia).
    destruct (Z.eqb_spec (Zpos vx mod Zpos vy * 2 ^ (- e)) 0) as [E|E].
    + replace (Zpos vx mod Zpos vy) with 0 by nia. reflexivity.
    + cbn [cond_Zopp]. replace e with (- - e) at 2 by lia.
      apply normalize_exact; [unfold e; lia | lia].
Qed.

Lemma strict_eq_zero_safe (y : Z) :
  safe y -> strict_eq (of_Z y) (of_Z 0) = (y =? 0).
Proof.
  intros Hy. destruct (safe_cases y Hy) as [->|(s & v & -> & Hv)]; [reflexivity|].
  rewrite (of_Z_signed s v Hv). destruct s; reflexivity.
Qed.

End SafeRemainder.

(** X14: MOD is exact on safe integers: for [x] from 0 to [2^53 - 1] (popped
    first) and [y] from 1 to [2^53 - 1] (popped second), [mod] pushes exactly
    the remainder of [x] by [y]. *)
Theorem mod_exact (x y : Z) :
  (0 <= x < 2 ^ 53)%Z -> (0 < y < 2 ^ 53)%Z ->
  EVM.modResult (of_Z x) (of_Z y) = of_Z (x mod y).
Proof.
  intros Hx Hy. unfold EVM.modResult, strict_neq.
  fold (strict_eq (of_Z y) (of_Z 0)).
  rewrite strict_eq_zero_safe by (unfold safe; lia).
  replace (y =? 0)%Z with false by (symmetry; apply Z.eqb_neq; lia).
  cbn [negb]. rewrite JS_rem_exact by assumption.
  apply rem_pow_2_256_safe. unfold safe.
  pose proof (Z.mod_pos_bound x y). lia.
Qed.

Lemma mod_exact_witness :
  EVM.modResult (of_Z 9007199254740991) (of_Z 10) = of_Z (9007199254740991 mod 10).
Proof.
  apply (mod_exact 9007199254740991 10); vm_compute; split; congruence.
Defined.

Section SafeComparison.

Local Open Scope Z_scope.

Lemma digits_lt_value (a b : positive) :
  digits a < digits b -> Zpos a < Zpos b.
Proof.
  intros H. pose proof (digits_upper a) as Hu. pose proof (digits_lower b) as Hl.
  assert (2 ^ digits a <= 2 ^ (digits b - 1))
    by (apply Z.pow_le_mono_r; pose proof (digits_pos a); lia).
  lia.
Qed.

Lemma compare_canonical_abs (vx vy : positive) :
  Zpos vx < 2 ^ 53 -> Zpos vy < 2 ^ 53 ->
  match (digits vx - 53 ?= digits vy - 53) with
  | Eq => Pos.compare_cont Eq
            (Z.to_pos (Zpos vx * 2 ^ (53 - digits vx)))
            (Z.to_pos (Zpos vy * 2 ^ (53 - digits vy)))
  | c => c
  end = (Zpos vx ?= Zpos vy).
Proof.
  intros Hx Hy.
  pose proof (digits_le_53 vx Hx) as Hdx. pose proof (digits_le_53 vy Hy) as Hdy.
  destruct (Z.compare_spec (digits vx - 53) (digits vy - 53)) as [E|E|E].
  - change (Pos.compare_cont Eq ?a ?b) with (Zpos a ?= Zpos b).
    rewrite !canonical_mantissa_eq by assumption.
    replace (digits vy) with (digits vx) by lia.
    symmetry. apply Zmult_compare_compat_r, Z.lt_gt, Z.pow_pos_nonneg; lia.
  - symmetry. apply Z.compare_lt_iff. apply digits_lt_value. lia.
  - symmetry. apply Z.compare_gt_iff. apply digits_lt_value. lia.
Qed.

Lemma SFcompare_exact (x y : Z) :
  safe x -> safe y -> SFcompare (of_Z x) (of_Z y) = Some (x ?= y).
Proof.
  intros Hx Hy.
  destruct (safe_cases x Hx) as [->|(sx & vx & -> & Hvx)];
    destruct (safe_cases y Hy) as [->|(sy & vy & -> & Hvy)].
  - reflexivity.
  - rewrite (of_Z_signed sy vy Hvy). destruct sy; reflexivity.
  - rewrite (of_Z_signed sx vx Hvx). destruct sx; reflexivity.
  - rewrite (of_Z_signed sx vx Hvx), (of_Z_signed sy vy Hvy).
    unfold canonical, SFcompare.
    destruct sx, sy; try reflexivity; f_equal.
    + change (signed true vx ?= signed true vy)
        with (CompOpp (Zpos vx ?= Zpos vy)).
      rewrite <- (compare_canonical_abs vx vy Hvx Hvy).
      now destruct (digits vx - 53 ?= digits vy - 53).
    + exact (compare_canonical_abs vx vy Hvx Hvy).
Qed.

End SafeComparison.

Lemma JS_lt_exact (x y : Z) :
  safe x -> safe y -> JS.lt (of_Z x) (of_Z y) = (x <? y)%Z.
Proof.
  intros Hx Hy. unfold JS.lt, SFltb, Z.ltb.
  now rewrite (SFcompare_exact x y Hx Hy).
Qed.

Lemma strict_eq_exact (x y : Z) :
  safe x -> safe y -> strict_eq (of_Z x) (of_Z y) = (x =? y)%Z.
Proof.
  intros Hx Hy. unfold strict_eq, SFeqb.
  rewrite (SFcompare_exact x y Hx Hy).
  destruct (Z.compare_spec x y) as [E|E|E];
    destruct (Z.eqb_spec x y) as [E'|E']; try lia; reflexivity.
Qed.

(** X15: the comparisons are those of the integers on safe integers: for
    safe [x] (popped first) and [y] (popped second), LT pushes 1 if [x < y]
    and 0 otherwise, GT pushes 1 if [x > y] and 0 otherwise, and EQ pushes 1
    if [x = y] and 0 otherwise. *)
Theorem comparisons_exact (x y : Z) :
  safe x -> safe y ->
  EVM.ltResult (of_Z x) (of_Z y) = of_Z (if (x <? y)%Z then 1 else 0)
  /\ EVM.gtResult (of_Z x) (of_Z y) = of_Z (if (y <? x)%Z then 1 else 0)
  /\ EVM.eqResult (of_Z x) (of_Z y) = of_Z (if (x =? y)%Z then 1 else 0).
Proof.
  intros Hx Hy. unfold EVM.ltResult, EVM.gtResult, EVM.eqResult.
  change (JS.gt (of_Z x) (of_Z y)) with (JS.lt (of_Z y) (of_Z x)).
  rewrite (JS_lt_exact x y Hx Hy), (JS_lt_exact y x Hy Hx),
    (strict_eq_exact y x Hy Hx), (Z.eqb_sym y x).
  destruct (x <? y)%Z, (y <? x)%Z, (x =? y)%Z; repeat split; reflexivity.
Qed.

Lemma comparisons_exact_witness :
  EVM.ltResult (of_Z 6) (of_Z 2) = of_Z (if (6 <? 2)%Z then 1 else 0)
  /\ EVM.gtResult (of_Z 6) (of_Z 2) = of_Z (if (2 <? 6)%Z then 1 else 0)
  /\ EVM.eqResult (of_Z 6) (of_Z 2) = of_Z (if (6 =? 2)%Z then 1 else 0).
Proof.
  apply (comparisons_exact 6 2); vm_compute; reflexivity.
Defined.

Section SafeDivision.

Local Open Scope Z_scope.

Lemma new_location_zero (steps : Z) : new_location steps 0 = loc_Exact.
Proof.
  unfold new_location. destruct (Z.even steps); reflexivity.
Qed.

(** The core of the division of two 53-digit mantissas when the quotient of
    the shifted dividend is exact. *)
Lemma div_core_exact (mx my : positive) (ex ey q : Z) :
  digits mx = 53 -> digits my = 53 -> -1021 <= ex - ey ->
  Zpos mx * 2 ^ 53 = q * Zpos my ->
  SFdiv_core_binary prec emax (Zpos mx) ex (Zpos my) ey
  = (q, ex - ey - 53, loc_Exact).
Proof.
  intros Hdx Hdy He Hq.
  unfold SFdiv_core_binary. cbn [Zdigits2]. fold (digits mx). fold (digits my).
  rewrite Hdx, Hdy, fexp_eq.
  replace (Z.min (Z.max (53 + ex - (53 + ey) - 53) (-1074)) (ex - ey))
    with (ex - ey - 53) by lia.
  replace (ex - ey - (ex - ey - 53)) with 53 by lia.
  cbv iota. rewrite Z.shiftl_mul_pow2, Hq by lia.
  pose proof (Z.div_mul q (Zpos my) ltac:(lia)) as Hdiv.
  pose proof (Z.mod_mul q (Zpos my) ltac:(lia)) as Hmod.
  unfold Z.div, Z.modulo in Hdiv, Hmod.
  destruct (Z.div_eucl (q * Zpos my) (Zpos my)) as [q' r'].
  subst q' r'. now rewrite new_location_zero.
Qed.

Lemma digits_quotient (Q vx vy : positive) :
  Zpos vx = Zpos Q * Zpos vy -> digits vx - digits vy <= digits Q.
Proof.
  intros H.
  pose proof (digits_lower vx) as Hl. pose proof (digits_upper Q) as HuQ.
  pose proof (digits_upper vy) as Huy.
  pose proof (digits_pos vx). pose proof (digits_pos vy). pose proof (digits_pos Q).
  destruct (Z.le_gt_cases (digits vx - digits vy) (digits Q)) as [E|E]; [exact E|].
  exfalso.
  assert (Hpow : 2 ^ (digits Q + digits vy) <= 2 ^ (digits vx - 1))
    by (apply Z.pow_le_mono_r; lia).
  rewrite Z.pow_add_r in Hpow by lia. nia.
Qed.

Lemma div_canonical (Q vy : positive) :
  Zpos (Q * vy) < 2 ^ 53 ->
  JS.div (canonical false (Q * vy)) (canonical false vy) = canonical false Q.
Proof.
  intros Hx.
  assert (Hvy : Zpos vy < 2 ^ 53) by (rewrite Pos2Z.inj_mul in Hx; nia).
  assert (HQ : Zpos Q < 2 ^ 53) by (rewrite Pos2Z.inj_mul in Hx; nia).
  set (vx := (Q * vy)%positive) in *.
  assert (Hvx : Zpos vx = Zpos Q * Zpos vy) by apply Pos2Z.inj_mul.
  pose proof (digits_le_53 vx Hx) as Hdx. pose proof (digits_le_53 vy Hvy) as Hdy.
  pose proof (digits_le_53 Q HQ) as HdQ.
  pose proof (digits_pos vx) as Hpx. pose proof (digits_pos vy) as Hpy.
  pose proof (digits_pos Q) as HpQ.
  pose proof (digits_quotient Q vx vy Hvx) as Hquot.
  pose proof (canonical_mantissa_eq vx Hdx) as Hmx.
  pose proof (canonical_mantissa_eq vy Hdy) as Hmy.
  unfold JS.div, canonical, SFdiv.
  set (mx := Z.to_pos (Zpos vx * 2 ^ (53 - digits vx))) in *.
  set (my := Z.to_pos (Zpos vy * 2 ^ (53 - digits vy))) in *.
  set (jj := 53 + digits vy - digits vx).
  assert (Hq : Zpos mx * 2 ^ 53 = (Zpos Q * 2 ^ jj) * Zpos my).
  { rewrite Hmx, Hmy, Hvx. unfold jj.
    replace (2 ^ 53) with (2 ^ (digits vx - digits vx + 53)) by (f_equal; lia).
    replace (Zpos Q * Zpos vy * 2 ^ (53 - digits vx) * 2 ^ (digits vx - digits vx + 53))
      with (Zpos Q * Zpos vy * (2 ^ (53 - digits vx) * 2 ^ 53))
      by (replace (digits vx - digits vx + 53) with 53 by lia; ring).
    rewrite <- Z.pow_add_r by lia.
    replace (Zpos Q * 2 ^ (53 + digits vy - digits vx) * (Zpos vy * 2 ^ (53 - digits vy)))
      with (Zpos Q * Zpos vy * (2 ^ (53 + digits vy - digits vx) * 2 ^ (53 - digits vy)))
      by ring.
    rewrite <- Z.pow_add_r by lia. do 2 f_equal. lia. }
  assert (Hdmx : digits mx = 53)
    by (rewrite (digits_shift mx vx (53 - digits vx)); [lia | lia | exact Hmx]).
  assert (Hdmy : digits my = 53)
    by (rewrite (digits_shift my vy (53 - digits vy)); [lia | lia | exact Hmy]).
  rewrite (div_core_exact mx my (digits vx - 53) (digits vy - 53)
             (Zpos Q * 2 ^ jj) Hdmx Hdmy ltac:(lia) Hq).
  assert (Hp : 0 < 2 ^ jj) by (apply Z.pow_pos_nonneg; unfold jj; lia).
  destruct (Zpos Q * 2 ^ jj) as [|Mq|Mq] eqn:EM; try lia.
  cbn [xorb].
  assert (HMq : Zpos Mq = Zpos Q * 2 ^ jj) by lia.
  rewrite (binary_round_aux_exact false Q Mq jj
             (digits vx - 53 - (digits vy - 53) - 53)
             ltac:(unfold jj; lia) HMq HdQ)
    by (unfold jj; lia).
  f_equal. unfold jj. lia.
Qed.

(** Division of Numbers is exact when the divisor divides the dividend. *)
Lemma JS_div_exact (q y : Z) :
  0 <= q -> 0 < y < 2 ^ 53 -> q * y < 2 ^ 53 ->
  JS.div (of_Z (q * y)) (of_Z y) = of_Z q.
Proof.
  intros Hq Hy Hs.
  destruct y as [|vy|vy]; try lia.
  destruct q as [|Q|Q]; try lia.
  - rewrite Z.mul_0_l, (of_Z_pos vy) by lia. reflexivity.
  - change (Zpos Q * Zpos vy) with (Zpos (Q * vy)) in *.
    rewrite (of_Z_pos _ Hs), (of_Z_pos vy), (of_Z_pos Q) by nia.
    now apply div_canonical.
Qed.

End SafeDivision.

(** X16: DIV is exact when the divisor divides the dividend: for an integer
    [q >= 0] and [y] from 1 to [2^53 - 1] with [q * y] below [2^53], [div] with
    [q * y] popped first and [y] popped second pushes exactly [q]. *)
Theorem div_exact (q y : Z) :
  (0 <= q)%Z -> (0 < y < 2 ^ 53)%Z -> (q * y < 2 ^ 53)%Z ->
  EVM.divResult (of_Z (q * y)) (of_Z y) = of_Z q.
Proof.
  intros Hq Hy Hs. unfold EVM.divResult.
  rewrite strict_eq_zero_safe by (unfold safe; lia).
  replace (y =? 0)%Z with false by (symmetry; apply Z.eqb_neq; lia).
  rewrite JS_div_exact by assumption.
  apply rem_pow_2_256_safe. unfold safe. nia.
Qed.

Lemma div_exact_witness :
  EVM.divResult (of_Z (1234567 * 89)) (of_Z 89) = of_Z 1234567.
Proof.
  apply (div_exact 1234567 89); vm_compute; try split; congruence.
Defined.

(** ** What [run] can throw *)

Lemma run_loop_uncaught (fuel : nat) :
  forall vm e, EVM.run_loop fuel vm = EVM.Uncaught e -> e = EVM.StackUnderflow.
Proof.
  induction fuel as [|fuel IH]; intros vm e; simpl.
  - destruct (EVM.pc vm <? List.length (EVM.code vm)); discriminate.
  - destruct (EVM.pc vm <? List.length (EVM.code vm)); [|discriminate].
    destruct (EVM.step vm) as [v1|e1] eqn:Hs.
    + apply IH.
    + intros H; injection H as <-. now destruct (step_throw vm e1 Hs).
Qed.

(** The bytes that make an instruction take items from the stack. *)
Definition consumer_opcode (op : N) : bool :=
  (op =? EVM.POP)%N
  || match binary_result op with Some _ => true | None => false end.

Lemma dispatch_no_consumer (op : N) (vm : EVM.t) :
  consumer_opcode op = false ->
  exists vm', EVM.dispatch (Some op) vm = EVM.Normal vm'.
Proof.
  unfold consumer_opcode, binary_result. intros H.
  apply orb_false_elim in H. destruct H as [Hpop Hbin].
  unfold EVM.dispatch.
  destruct ((EVM.PUSH1 <=? op) && (op <=? EVM.PUSH32))%N;
    [unfold EVM.push; eauto|].
  destruct (op =? EVM.PUSH0)%N; [eauto|]. rewrite Hpop.
  repeat match type of Hbin with
         | context [(op =? ?k)%N] =>
             destruct (op =? k)%N; [discriminate Hbin|]
         end.
  eauto.
Qed.

(** X17: the only exception with which [run] can end is the stack underflow;
    and a program in which none of the nine byte values of POP and of the
    binary instructions occurs always returns, whatever the initial stack. *)
Theorem run_throws_only_underflow (vm : EVM.t) :
  (forall e, EVM.run vm = EVM.Uncaught e -> e = EVM.StackUnderflow)
  /\ (Forall (fun b => consumer_opcode (Byte.to_N b) = false) (EVM.code vm) ->
      exists vm', EVM.run vm = EVM.Returned vm').
Proof.
  split; [intros e; apply run_loop_uncaught|].
  intros Hall.
  destruct (run_loop_enough _ vm (Nat.le_refl _)) as [(v & Hr & _) | [e He]];
    fold (EVM.run vm) in *; [eauto|].
  exfalso. revert He. unfold EVM.run.
  generalize (List.length (EVM.code vm) - EVM.pc vm) as fuel.
  intros fuel. revert vm Hall.
  induction fuel as [|fuel IH]; intros vm Hall; simpl.
  - destruct (EVM.pc vm <? List.length (EVM.code vm)); discriminate.
  - destruct (EVM.pc vm <? List.length (EVM.code vm)); [|discriminate].
    destruct (EVM.step vm) as [v1|e1] eqn:Hs.
    + apply IH. destruct (step_frame vm v1 Hs) as [Hc _]. now rewrite Hc.
    + exfalso. unfold EVM.step, EVM.nextInstruction in Hs.
      destruct (nth_error (EVM.code vm) (EVM.pc vm)) as [b|] eqn:E;
        [|discriminate Hs].
      cbn [option_map] in Hs.
      apply nth_error_In in E. rewrite Forall_forall in Hall.
      destruct (dispatch_no_consumer (Byte.to_N b)
                  (EVM.with_pc vm (EVM.pc vm + 1)) (Hall b E)) as [v' Hv].
      congruence.
Qed.

Lemma run_throws_only_underflow_witness :
  EVM.Error "Stack underflow" = EVM.StackUnderflow
  /\ exists vm', EVM.run (EVM.new [x60; x07; x5f; xfe; x61; x09]) = EVM.Returned vm'.
Proof.
  split.
  - apply (proj1 (run_throws_only_underflow (EVM.new [x60; x01; x01]))).
    vm_compute. reflexivity.
  - apply (proj2 (run_throws_only_underflow (EVM.new [x60; x07; x5f; xfe; x61; x09]))).
    repeat constructor.
Defined.

(** ** NaN on the stack *)

(** X18: a PUSH-N instruction that is the last byte of the code, with no
    operand byte at all, pushes NaN; and NaN spreads: ADD, SUB and MUL with
    NaN as one of the two popped items push NaN again. *)
Theorem push_without_operand (vm : EVM.t) (b : byte) :
  nth_error (EVM.code vm) (EVM.pc vm) = Some b ->
  (EVM.PUSH1 <= Byte.to_N b <= EVM.PUSH32)%N ->
  EVM.pc vm + 1 = List.length (EVM.code vm) ->
  EVM.step vm
  = EVM.Normal
      (EVM.mk (EVM.code vm) (EVM.pc vm + 1 + push_size (Byte.to_N b))
         (EVM.stack vm ++ [NaN]))
  /\ forall a,
       EVM.addResult NaN a = NaN /\ EVM.addResult a NaN = NaN
       /\ EVM.subResult NaN a = NaN /\ EVM.subResult a NaN = NaN
       /\ EVM.mulResult NaN a = NaN /\ EVM.mulResult a NaN = NaN.
Proof.
  intros Hb Hop Hend. split.
  - rewrite (step_push vm b Hb Hop).
    unfold EVM.slice. rewrite skipn_all2 by lia. now rewrite firstn_nil.
  - intros a. repeat split; try reflexivity; destruct a; reflexivity.
Qed.

Lemma push_without_operand_witness :
  EVM.step (EVM.mk [x60; x01; x7f] 2 [of_Z 1])
  = EVM.Normal (EVM.mk [x60; x01; x7f] 35 [of_Z 1; NaN]).
Proof.
  apply (proj1 (push_without_operand (EVM.mk [x60; x01; x7f] 2 [of_Z 1]) x7f
                  eq_refl ltac:(vm_compute; split; discriminate) eq_refl)).
Defined.

(** ** An item combined with itself *)

Lemma SFcompare_refl (a : number) : a <> NaN -> SFcompare a a = Some Eq.
Proof.
  intros Ha. destruct a as [s|s| |s m e]; try (now destruct s).
  - now contradiction Ha.
  - unfold SFcompare. rewrite Z.compare_refl.
    change (Pos.compare_cont Eq m m) with (Pos.compare m m).
    rewrite Pos.compare_refl. now destruct s.
Qed.

(** X19: for every item [a] that is neither NaN nor infinite, SUB of [a] and
    [a] pushes 0; and for every item [a] other than NaN, EQ of [a] and [a]
    pushes 1 while LT and GT push 0. *)
Theorem item_with_itself (a : number) :
  a <> NaN ->
  ((forall s, a <> S754_infinity s) -> EVM.subResult a a = of_Z 0)
  /\ EVM.eqResult a a = of_Z 1
  /\ EVM.ltResult a a = of_Z 0
  /\ EVM.gtResult a a = of_Z 0.
Proof.
  intros Ha. split.
  - intros Hinf. destruct a as [s|s| |s m e].
    + now destruct s.
    + now contradiction (Hinf s).
    + now contradiction Ha.
    + unfold EVM.subResult, JS.sub, SFsub, shl_align.
      rewrite Z.min_id, Z.sub_diag. cbv beta iota zeta. cbn [fst].
      reflexivity.
  - unfold EVM.eqResult, EVM.ltResult, EVM.gtResult, strict_eq, JS.lt, JS.gt,
      SFeqb, SFltb.
    rewrite (SFcompare_refl a Ha). repeat split; reflexivity.
Qed.

Lemma item_with_itself_witness :
  EVM.subResult (of_Z 12345) (of_Z 12345) = of_Z 0.
Proof.
  apply (proj1 (item_with_itself (of_Z 12345) ltac:(vm_compute; discriminate))).
  intros s; vm_compute; discriminate.
Defined.

(** ** Two pushes and a binary instruction *)

Lemma run_done (vm : EVM.t) :
  List.length (EVM.code vm) <= EVM.pc vm -> EVM.run vm = EVM.Returned vm.
Proof.
  intros H. unfold EVM.run.
  replace (List.length (EVM.code vm) - EVM.pc vm) with 0 by lia.
  simpl. apply Nat.ltb_ge in H. now rewrite H.
Qed.

(** A program made of one complete PUSH-N instruction. *)
Lemma run_single_push (b : byte) (d : list byte) (s : list number) :
  Byte.to_N b = (EVM.PUSH0 + N.of_nat (List.length d))%N ->
  1 <= List.length d <= 32 ->
  EVM.run (EVM.mk (b :: d) 0 s)
  = EVM.Returned (EVM.mk (b :: d) (List.length (b :: d))
                    (s ++ [of_Z (big_endian d)])).
Proof.
  intros Hb Hd.
  assert (Hop : (EVM.PUSH1 <= Byte.to_N b <= EVM.PUSH32)%N)
    by (rewrite Hb; unfold EVM.PUSH0, EVM.PUSH1, EVM.PUSH32; lia).
  assert (Hsz : push_size (Byte.to_N b) = List.length d)
    by (rewrite Hb; unfold push_size, EVM.PUSH0, EVM.PUSH1; lia).
  pose proof (step_push (EVM.mk (b :: d) 0 s) b eq_refl Hop) as Hstep.
  cbn [EVM.code EVM.pc EVM.stack] in Hstep. rewrite Hsz in Hstep.
  replace (EVM.slice (b :: d) (0 + 1) (0 + 1 + List.length d)) with d in Hstep.
  2:{ unfold EVM.slice. simpl.
      replace (List.length d - 0) with (List.length d) by lia.
      now rewrite firstn_all. }
  rewrite parseInt16_hex_nonempty in Hstep
    by (intros E; rewrite E in Hd; simpl in Hd; lia).
  rewrite (run_step (EVM.mk (b :: d) 0 s) _ ltac:(simpl; lia) Hstep).
  apply run_done. simpl. lia.
Qed.

(** A program made of one binary instruction. *)
Lemma run_single_binary (op : byte) (f : number -> number -> number)
      (s : list number) (item1 item2 : number) :
  binary_result (Byte.to_N op) = Some f ->
  EVM.run (EVM.mk [op] 0 (s ++ [item2; item1]))
  = EVM.Returned (EVM.mk [op] 1 (s ++ [f item1 item2])).
Proof.
  intros Hf.
  pose proof (step_binary [op] 0 op f s item1 item2 eq_refl Hf) as Hstep.
  rewrite (run_step (EVM.mk [op] 0 (s ++ [item2; item1])) _
             ltac:(simpl; lia) Hstep).
  apply run_done. simpl. lia.
Qed.

(** After two complete push instructions, the rest of the program runs on
    the stack extended by the two values. *)
Lemma run_two_pushes (b1 b2 : byte) (d1 d2 rest : list byte)
      (s : list number) :
  Byte.to_N b1 = (EVM.PUSH0 + N.of_nat (List.length d1))%N ->
  1 <= List.length d1 <= 32 ->
  Byte.to_N b2 = (EVM.PUSH0 + N.of_nat (List.length d2))%N ->
  1 <= List.length d2 <= 32 ->
  EVM.run (EVM.mk ((b1 :: d1) ++ (b2 :: d2) ++ rest) 0 s)
  = relocate_outcome (b1 :: d1)
      (relocate_outcome (b2 :: d2)
         (EVM.run (EVM.mk rest 0
                     (s ++ [of_Z (big_endian d1); of_Z (big_endian d2)])))).
Proof.
  intros Hb1 Hd1 Hb2 Hd2.
  rewrite (run_prefix (b1 :: d1) ((b2 :: d2) ++ rest) s
             (s ++ [of_Z (big_endian d1)]) (run_single_push b1 d1 s Hb1 Hd1)).
  rewrite run_suffix.
  rewrite (run_prefix (b2 :: d2) rest (s ++ [of_Z (big_endian d1)])
             ((s ++ [of_Z (big_endian d1)]) ++ [of_Z (big_endian d2)])
             (run_single_push b2 d2 _ Hb2 Hd2)).
  rewrite run_suffix, <- app_assoc. reflexivity.
Qed.

(** X20: a program that pushes the operand [d1], then the operand [d2], and
    then executes a binary instruction returns with one more item on the
    stack: the result of the instruction for the value of [d2] as the
    first-popped item and the value of [d1] as the second-popped one.  The
    items that were on the stack before are kept below it. *)
Theorem push_push_binary (b1 b2 op : byte) (d1 d2 : list byte)
        (f : number -> number -> number) (s : list number) :
  Byte.to_N b1 = (EVM.PUSH0 + N.of_nat (List.length d1))%N ->
  1 <= List.length d1 <= 32 ->
  Byte.to_N b2 = (EVM.PUSH0 + N.of_nat (List.length d2))%N ->
  1 <= List.length d2 <= 32 ->
  binary_result (Byte.to_N op) = Some f ->
  let program := (b1 :: d1) ++ (b2 :: d2) ++ [op] in
  EVM.run (EVM.mk program 0 s)
  = EVM.Returned
      (EVM.mk program (List.length program)
         (s ++ [f (of_Z (big_endian d2)) (of_Z (big_endian d1))])).
Proof.
  intros Hb1 Hd1 Hb2 Hd2 Hf program. unfold program.
  rewrite (run_two_pushes b1 b2 d1 d2 [op] s Hb1 Hd1 Hb2 Hd2).
  rewrite (run_single_binary op f s _ _ Hf).
  unfold relocate_outcome, relocate. cbn [EVM.code EVM.pc EVM.stack].
  do 2 f_equal. cbn [app List.length].
  repeat (rewrite length_app; cbn [List.length]). lia.
Qed.

Lemma push_push_binary_witness :
  EVM.run (EVM.mk ((x60 :: [x02]) ++ (x61 :: [x01; x00]) ++ [x03]) 0 [of_Z 9])
  = EVM.Returned
      (EVM.mk ((x60 :: [x02]) ++ (x61 :: [x01; x00]) ++ [x03]) 6
         [of_Z 9; EVM.subResult (of_Z 256) (of_Z 2)]).
Proof.
  apply (push_push_binary x60 x61 x03 [x02] [x01; x00] EVM.subResult [of_Z 9]
           eq_refl ltac:(simpl; lia) eq_refl ltac:(simpl; lia) eq_refl).
Defined.

(** ** Arithmetic on pushed operands of at most six bytes *)

Lemma big_endian_safe (d : list byte) :
  List.length d <= 6 -> (0 <= big_endian d < 2 ^ 48)%Z.
Proof.
  intros H. pose proof (big_endian_bounds d) as Hb.
  assert (256 ^ Z.of_nat (List.length d) <= 256 ^ 6)%Z
    by (apply Z.pow_le_mono_r; lia).
  change (256 ^ 6)%Z with (2 ^ 48)%Z in *. lia.
Qed.

(** X21: on operands of at most six bytes the interpreter computes with the
    integers they denote.  For the program that pushes [d1], pushes [d2] and
    executes one instruction, with [x] the value of [d2] (popped first) and
    [y] the value of [d1] (popped second): ADD leaves [x + y]; SUB leaves
    [x - y], negative when [x < y]; LT, GT and EQ leave 1 or 0 according to
    [x < y], [x > y] and [x = y]; MOD leaves the remainder of [x] by [y] when
    [y] is not zero; and DIV and MOD leave 0 when [y] is zero. *)
Theorem pushed_operands_arithmetic (b1 b2 : byte) (d1 d2 : list byte)
        (s : list number) :
  Byte.to_N b1 = (EVM.PUSH0 + N.of_nat (List.length d1))%N ->
  1 <= List.length d1 <= 6 ->
  Byte.to_N b2 = (EVM.PUSH0 + N.of_nat (List.length d2))%N ->
  1 <= List.length d2 <= 6 ->
  let x := big_endian d2 in
  let y := big_endian d1 in
  let program op := (b1 :: d1) ++ (b2 :: d2) ++ [op] in
  let leaves op v :=
    EVM.run (EVM.mk (program op) 0 s)
    = EVM.Returned
        (EVM.mk (program op) (List.length (program op)) (s ++ [of_Z v])) in
  leaves x01 (x + y)%Z
  /\ leaves x03 (x - y)%Z
  /\ leaves x10 (if (x <? y)%Z then 1 else 0)%Z
  /\ leaves x11 (if (y <? x)%Z then 1 else 0)%Z
  /\ leaves x14 (if (x =? y)%Z then 1 else 0)%Z
  /\ (y <> 0%Z -> leaves x06 (x mod y)%Z)
  /\ (y = 0%Z -> leaves x04 0%Z /\ leaves x06 0%Z).
Proof.
  intros Hb1 Hd1 Hb2 Hd2 x y program leaves.
  pose proof (big_endian_safe d1 ltac:(lia)) as Hy. fold y in Hy.
  pose proof (big_endian_safe d2 ltac:(lia)) as Hx. fold x in Hx.
  assert (H48 : (2 ^ 48 = 281474976710656)%Z) by reflexivity.
  assert (H53 : (2 ^ 53 = 9007199254740992)%Z) by reflexivity.
  assert (Hsx : safe x) by (unfold safe; lia).
  assert (Hsy : safe y) by (unfold safe; lia).
  assert (Hrun : forall op f,
             binary_result (Byte.to_N op) = Some f ->
             EVM.run (EVM.mk (program op) 0 s)
             = EVM.Returned
                 (EVM.mk (program op) (List.length (program op))
                    (s ++ [f (of_Z x) (of_Z y)]))).
  { intros op f Hf. unfold program.
    rewrite (run_two_pushes b1 b2 d1 d2 [op] s) by (assumption || lia).
    rewrite (run_single_binary op f s _ _ Hf).
    unfold relocate_outcome, relocate. cbn [EVM.code EVM.pc EVM.stack].
    do 2 f_equal. cbn [app List.length].
    repeat (rewrite length_app; cbn [List.length]). lia. }
  assert (Hrem : forall z, safe z -> rem (of_Z z) pow_2_256 = of_Z z)
    by exact rem_pow_2_256_safe.
  unfold leaves.
  split.
  { rewrite (Hrun x01 EVM.addResult eq_refl). unfold EVM.addResult.
    rewrite (JS_add_exact x y), Hrem by (unfold safe; lia). reflexivity. }
  split.
  { rewrite (Hrun x03 EVM.subResult eq_refl). unfold EVM.subResult.
    rewrite (JS_sub_exact x y), Hrem by (unfold safe; lia). reflexivity. }
  split.
  { rewrite (Hrun x10 EVM.ltResult eq_refl). unfold EVM.ltResult.
    rewrite (JS_lt_exact x y Hsx Hsy). now destruct (x <? y)%Z. }
  split.
  { rewrite (Hrun x11 EVM.gtResult eq_refl). unfold EVM.gtResult.
    change (JS.gt (of_Z x) (of_Z y)) with (JS.lt (of_Z y) (of_Z x)).
    rewrite (JS_lt_exact y x Hsy Hsx). now destruct (y <? x)%Z. }
  split.
  { rewrite (Hrun x14 EVM.eqResult eq_refl). unfold EVM.eqResult.
    rewrite (strict_eq_exact y x Hsy Hsx), (Z.eqb_sym y x).
    now destruct (x =? y)%Z. }
  split.
  - intros Hy0. rewrite (Hrun x06 EVM.modResult eq_refl).
    unfold EVM.modResult, strict_neq. fold (strict_eq (of_Z y) (of_Z 0)).
    rewrite (strict_eq_zero_safe y Hsy).
    replace (y =? 0)%Z with false by (symmetry; apply Z.eqb_neq; lia).
    cbn [negb]. rewrite (JS_rem_exact x y) by lia.
    rewrite Hrem; [reflexivity|]. unfold safe.
    pose proof (Z.mod_pos_bound x y). lia.
  - intros Hy0. rewrite (Hrun x04 EVM.divResult eq_refl),
      (Hrun x06 EVM.modResult eq_refl), Hy0. split; reflexivity.
Qed.

Lemma pushed_operands_arithmetic_witness :
  EVM.run (EVM.mk ((x60 :: [x03]) ++ (x61 :: [x00; x02]) ++ [x03]) 0 [])
  = EVM.Returned
      (EVM.mk ((x60 :: [x03]) ++ (x61 :: [x00; x02]) ++ [x03]) 6 [of_Z (-1)]).
Proof.
  apply (proj1 (proj2 (pushed_operands_arithmetic x60 x61 [x03] [x00; x02] []
                         eq_refl ltac:(simpl; lia) eq_refl ltac:(simpl; lia)))).
Defined.

(** ** Errors and overflow of the arithmetic instructions *)

(** The 32 operand bytes of the word [2^256 - 2^203]. *)
Definition overflow_operand_a : list byte :=
  repeat xff 6 ++ [xf8] ++ repeat x00 25.

(** The 32 operand bytes of the word [2^203 + 2^151]. *)
Definition overflow_operand_b : list byte :=
  repeat x00 6 ++ [x08] ++ repeat x00 6 ++ [x80] ++ repeat x00 18.

(** PUSH32 of the second word, PUSH32 of the first, ADD. *)
Definition overflow_program : list byte :=
  (x7f :: overflow_operand_b) ++ (x7f :: overflow_operand_a) ++ [x01].

(** C4: [div] and [mod] with the second-popped item [0] push [0] for every
    first-popped item, and the arithmetic instructions (ADD, MUL, SUB, DIV,
    MOD) raise no error but the stack underflow, which needs fewer than two
    items on the stack.  Results that stay below [2^53] are exact.  But an
    overflow does not wrap modulo [2^256]: the difference [2 - 3] stays the
    negative number [-1]; the sum of the words [2^256 - 2^203] and
    [2^203 + 2^151] is rounded before the remainder is taken and becomes [0]
    where the wrapped sum is [2^151]; and the square of [2^128 + 2^100]
    becomes [2^229] where the wrapped product is [2^229 + 2^200]. *)
Theorem C4_arithmetic_errors_and_overflow (vm : EVM.t) (a : number)
        (s : list number) :
  (EVM.div (EVM.mk (EVM.code vm) (EVM.pc vm) (s ++ [of_Z 0; a]))
   = EVM.Normal (EVM.mk (EVM.code vm) (EVM.pc vm) (s ++ [of_Z 0]))
   /\ EVM.mod_ (EVM.mk (EVM.code vm) (EVM.pc vm) (s ++ [of_Z 0; a]))
      = EVM.Normal (EVM.mk (EVM.code vm) (EVM.pc vm) (s ++ [of_Z 0]))
   /\ EVM.divResult a (of_Z 0) = of_Z 0
   /\ EVM.modResult a (of_Z 0) = of_Z 0)
  /\ ((forall m, In m arithmetic_methods ->
         (2 <= List.length (EVM.stack vm) -> exists vm', m vm = EVM.Normal vm')
         /\ (forall e, m vm = EVM.Throw e ->
               e = EVM.StackUnderflow /\ List.length (EVM.stack vm) < 2))
      /\ (forall b e, nth_error (EVM.code vm) (EVM.pc vm) = Some b ->
            In (Byte.to_N b) arithmetic_opcodes ->
            EVM.step vm = EVM.Throw e ->
            e = EVM.StackUnderflow /\ List.length (EVM.stack vm) < 2))
  /\ ((forall x y, (0 <= x)%Z -> (0 <= y)%Z -> (x + y < 2 ^ 53)%Z ->
         EVM.addResult (of_Z x) (of_Z y) = of_Z (x + y))
      /\ (forall x y, (0 <= x < 2 ^ 53)%Z -> (0 <= y < 2 ^ 53)%Z ->
            (x * y < 2 ^ 53)%Z ->
            EVM.mulResult (of_Z x) (of_Z y) = of_Z (x * y))
      /\ (forall x y, (0 <= y <= x)%Z -> (x < 2 ^ 53)%Z ->
            EVM.subResult (of_Z x) (of_Z y) = of_Z (x - y)))
  /\ (EVM.subResult (of_Z 2) (of_Z 3) = of_Z (-1)
      /\ of_Z (-1) <> of_Z ((2 - 3) mod 2 ^ 256))
  /\ (of_Z (2 ^ 256 - 2 ^ 203) = S754_finite false 9007199254740991 203
      /\ of_Z (2 ^ 203 + 2 ^ 151) = S754_finite false 4503599627370497 151
      /\ in_word_range (of_Z (2 ^ 256 - 2 ^ 203)) = true
      /\ in_word_range (of_Z (2 ^ 203 + 2 ^ 151)) = true
      /\ EVM.addResult (of_Z (2 ^ 256 - 2 ^ 203)) (of_Z (2 ^ 203 + 2 ^ 151))
         = of_Z 0
      /\ of_Z 0
         <> of_Z ((2 ^ 256 - 2 ^ 203 + (2 ^ 203 + 2 ^ 151)) mod 2 ^ 256)
      /\ big_endian overflow_operand_a = (2 ^ 256 - 2 ^ 203)%Z
      /\ big_endian overflow_operand_b = (2 ^ 203 + 2 ^ 151)%Z
      /\ EVM.run (EVM.new overflow_program)
         = EVM.Returned (EVM.mk overflow_program 67 [of_Z 0]))
  /\ (of_Z (2 ^ 128 + 2 ^ 100) = S754_finite false 4503599644147712 76
      /\ in_word_range (of_Z (2 ^ 128 + 2 ^ 100)) = true
      /\ EVM.mulResult (of_Z (2 ^ 128 + 2 ^ 100)) (of_Z (2 ^ 128 + 2 ^ 100))
         = of_Z (2 ^ 229)
      /\ of_Z (2 ^ 229)
         <> of_Z (((2 ^ 128 + 2 ^ 100) * (2 ^ 128 + 2 ^ 100)) mod 2 ^ 256)).
Proof.
  destruct (arithmetic_errors vm a s) as (Hdiv & Hmod & Hd & Hm & Hmeth & Hop).
  split; [repeat split; assumption|].
  split; [split; assumption|].
  split.
  { split; [|split].
    - intros x y Hx Hy Hs. unfold EVM.addResult.
      rewrite (JS_add_exact x y), rem_pow_2_256_safe by (unfold safe; lia).
      reflexivity.
    - intros x y Hx Hy Hs. unfold EVM.mulResult.
      rewrite (JS_mul_exact x y Hx Hy Hs). apply rem_pow_2_256_safe.
      unfold safe. nia.
    - intros x y Hy Hx. unfold EVM.subResult.
      rewrite (JS_sub_exact x y), rem_pow_2_256_safe by (unfold safe; lia).
      reflexivity. }
  split; [split; [vm_compute; reflexivity | vm_compute; discriminate]|].
  split.
  { repeat split; try (vm_compute; reflexivity). vm_compute; discriminate. }
  repeat split; try (vm_compute; reflexivity). vm_compute; discriminate.
Qed.

Lemma C4_arithmetic_errors_and_overflow_witness :
  (exists vm', EVM.add (EVM.mk [x01] 1 [of_Z 1; of_Z 2]) = EVM.Normal vm')
  /\ (EVM.StackUnderflow = EVM.StackUnderflow /\ List.length (@nil number) < 2)
  /\ EVM.addResult (of_Z 4503599627370495) (of_Z 4503599627370496)
     = of_Z (4503599627370495 + 4503599627370496)
  /\ EVM.mulResult (of_Z 94906265) (of_Z 94906265) = of_Z (94906265 * 94906265)
  /\ EVM.subResult (of_Z 9007199254740991) (of_Z 9007199254740990)
     = of_Z (9007199254740991 - 9007199254740990).
Proof.
  pose proof (C4_arithmetic_errors_and_overflow
                (EVM.mk [x01] 1 [of_Z 1; of_Z 2]) (of_Z 0) [])
    as (_ & (Hmeth & _) & (Hadd & Hmul & Hsub) & _).
  pose proof (C4_arithmetic_errors_and_overflow (EVM.mk [x04] 0 []) (of_Z 0) [])
    as (_ & (_ & Hop) & _).
  split; [|split; [|split; [|split]]].
  - apply (proj1 (Hmeth EVM.add (or_introl eq_refl))). simpl; lia.
  - apply (Hop x04 EVM.StackUnderflow eq_refl).
    + right; right; right; left; reflexivity.
    + reflexivity.
  - apply Hadd; vm_compute; congruence.
  - apply Hmul; vm_compute; try split; congruence.
  - apply Hsub; vm_compute; try split; congruence.
Defined.
